(** * CppLru: a bounded LRU cache over [std::list] and [std::unordered_map]

    Shallow embedding of the class template [lru] of [include/lru.h] and of
    the smaller class of the same name in [lru.h], with the invariants and the
    contracts of the public operations. *)

From stdpp Require Import gmap list fin_maps.
From Equations Require Import Equations.

Set Default Proof Using "Type*".

(** ** The standard containers the class is built on *)

(** A [std::list] node lives at a fixed address for as long as it is in the
  list; a [std::list::iterator] is that address, or the past-the-end
  position. *)
Definition addr := nat.

Inductive iterator : Type :=
| Node (a : addr)
| End.

#[global] Instance iterator_eq_dec : EqDecision iterator.
Proof. solve_decision. Defined.

Module StdList.
(** [std::pair<const Key, Value>], a node of the list (its address and the
    pair it owns), and the list itself, head first. *)
Abbreviation key_value_pair K V := (K * V)%type.
Abbreviation node K V := (addr * (K * V))%type.
Abbreviation list_type K V := (list (addr * (K * V))).

Section std_list.
Context {K V : Type}.
Implicit Types (l : list_type K V) (n : node K V) (it : iterator).

Definition node_addr (n : node K V) : addr := n.1.
Definition node_key (n : node K V) : K := n.2.1.

Definition addrs (l : list_type K V) : list addr := node_addr <$> l.
Definition keys (l : list_type K V) : list K := node_key <$> l.
Definition pairs (l : list_type K V) : list (key_value_pair K V) := snd <$> l.

(** [std::allocator]: the address handed out for a new node is one that no
    live node occupies (addresses of erased nodes may come back). *)
Definition allocate (l : list_type K V) : addr := S (max_list (addrs l)).

Definition begin_ (l : list_type K V) : iterator :=
  match l with
  | [] => End
  | n :: _ => Node (node_addr n)
  end.

(** [l.emplace(l.begin(), key, value)]: the new list and the iterator to the
    new node. *)
Definition emplace_begin (k : K) (v : V) (l : list_type K V) : list_type K V * iterator :=
  let a := allocate l in ((a, (k, v)) :: l, Node a).

Definition at_iter (it : iterator) (n : node K V) : Prop := Node (node_addr n) = it.

#[global] Instance at_iter_dec it n : Decision (at_iter it n).
Proof. unfold at_iter. apply _. Defined.

(** [l.splice(l.begin(), l, it)]: the node at [it] is relinked in front of
    the first one; no node is copied, moved in memory or invalidated. *)
Definition splice_begin (it : iterator) (l : list_type K V) : list_type K V :=
  filter (at_iter it) l ++ filter (λ n, ¬ at_iter it n) l.

(** [*it] *)
Definition deref (it : iterator) (l : list_type K V) : option (key_value_pair K V) :=
  snd <$> head (filter (at_iter it) l).

(** [it->second = f(it->second)]: a write through the iterator. *)
Definition write_second (it : iterator) (f : V → V) (l : list_type K V) : list_type K V :=
  (λ n : node K V, if decide (at_iter it n) then (n.1, (n.2.1, f n.2.2)) else n) <$> l.

(** [l.back()] and [l.pop_back()] *)
Definition back (l : list_type K V) : option (node K V) := last l.
Definition pop_back (l : list_type K V) : list_type K V := removelast l.
End std_list.
End StdList.
Import StdList.

(** ** The class of [include/lru.h]

    Every member function takes the object state and returns its result
    together with the new state. [Key] is any type with the (consistent) hash
    and equality the index needs; the callables handed to [try_update] and
    [for_each] are the new value they leave in [second]. *)

Section lru.
Context `{Countable K} {V : Type}.

Abbreviation key_value_pair := (key_value_pair K V).
Abbreviation node := (node K V).
Abbreviation list_type := (list_type K V).

Record lru : Type := Lru {
  _map : gmap K iterator;
  _list : list_type;
  _capacity : nat
}.

Definition lru_new (capacity : nat) : lru :=
  {| _map := ∅; _list := []; _capacity := capacity |}.

Definition end_ (c : lru) : iterator := End.
Definition begin (c : lru) : iterator := begin_ (_list c).
Definition empty (c : lru) : bool := bool_decide (_list c = []).
Definition size (c : lru) : nat := length (_list c).
Definition max_size (c : lru) : nat := _capacity c.

(** [return _map.find(key) != _map.end();] *)
Definition _contains (key : K) (c : lru) : bool :=
  bool_decide (is_Some (_map c !! key)).

(** [if (iter != _list.begin()) _list.splice(_list.begin(), _list, iter);] *)
Definition _promote (iter : iterator) (c : lru) : lru :=
  if decide (iter ≠ begin_ (_list c))
  then {| _map := _map c; _list := splice_begin iter (_list c); _capacity := _capacity c |}
  else c.

(** [_list.back()] of an empty list is undefined; [_prune] only calls
    [_evict] on a list longer than a capacity, so the last case is never run. *)
Definition _evict (c : lru) : lru :=
  match back (_list c) with
  | Some n =>
      {| _map := delete (node_key n) (_map c);
         _list := pop_back (_list c);
         _capacity := _capacity c |}
  | None => c
  end.

(** [while (_list.size() > capacity) _evict();] *)
Equations? _prune (capacity : nat) (c : lru) : lru by wf (length (_list c)) lt :=
  _prune capacity c with decide (capacity < length (_list c)) => {
    | left _ => _prune capacity (_evict c)
    | right _ => c }.
Proof.
  unfold _evict, back, pop_back.
  destruct (_list c) as [|n l' _] using rev_ind; simpl in *; [lia|].
  rewrite last_snoc. simpl. rewrite removelast_last, length_app. simpl. lia.
Qed.

(** The overload without argument: [_prune(_capacity)]. *)
Definition _prune_ (c : lru) : lru := _prune (_capacity c) c.

(** [auto iter = _list.emplace(_list.begin(), key, value);
     _map[iter->first] = _list.begin(); _prune();] *)
Definition _insert (key : K) (value : V) (c : lru) : lru :=
  let '(l, iter) := emplace_begin key value (_list c) in
  _prune_ {| _map := <[key := begin_ l]> (_map c); _list := l; _capacity := _capacity c |}.

(** [if (_contains(key)) return false; _insert(key, value); return true;] *)
Definition insert (key : K) (value : V) (c : lru) : bool * lru :=
  if _contains key c then (false, c)
  else (true, _insert key value c).

(** On a hit: [map_iter->second->second = value; _promote(map_iter->second);
    return false;], otherwise as [insert]. *)
Definition insert_or_assign (key : K) (value : V) (c : lru) : bool * lru :=
  match _map c !! key with
  | Some map_iter =>
      let c1 := {| _map := _map c;
                   _list := write_second map_iter (λ _, value) (_list c);
                   _capacity := _capacity c |} in
      (false, _promote map_iter c1)
  | None => (true, _insert key value c)
  end.

(** [auto iter = _map.find(key); if (iter == _map.end()) return end();
     _promote(iter->second); return iter->second;] *)
Definition find (key : K) (c : lru) : iterator * lru :=
  match _map c !! key with
  | None => (end_ c, c)
  | Some iter => (iter, _promote iter c)
  end.

(** [return find(key) != end();] *)
Definition contains (key : K) (c : lru) : bool * lru :=
  let '(iter, c1) := find key c in
  (bool_decide (iter ≠ end_ c1), c1).

(** [_prune(capacity); _capacity = capacity;] *)
Definition resize (capacity : nat) (c : lru) : lru :=
  let c1 := _prune capacity c in
  {| _map := _map c1; _list := _list c1; _capacity := capacity |}.

(** [std::for_each(begin(), end(), func);] with [func] taking
    [key_value_pair&]: the key is [const], the value may be rewritten. *)
Definition for_each (func : key_value_pair → V) (c : lru) : lru :=
  {| _map := _map c;
     _list := (λ n : node, (n.1, (n.2.1, func n.2))) <$> _list c;
     _capacity := _capacity c |}.

(** [auto iter = find(key); if (iter == end()) return false;
     func(iter->second); return true;] *)
Definition try_update (key : K) (func : V → V) (c : lru) : bool * lru :=
  let '(iter, c1) := find key c in
  if decide (iter = end_ c1) then (false, c1)
  else (true, {| _map := _map c1;
                 _list := write_second iter func (_list c1);
                 _capacity := _capacity c1 |}).

(** [get] hands out a reference to the value and [get_copy] a copy of it;
    both are the value read through the promoted iterator. *)
Definition get (key : K) (c : lru) : option V * lru :=
  match _map c !! key with
  | None => (None, c)
  | Some iterator =>
      let c1 := _promote iterator c in
      (snd <$> deref iterator (_list c1), c1)
  end.

Definition get_copy (key : K) (c : lru) : option V * lru :=
  match _map c !! key with
  | None => (None, c)
  | Some iterator =>
      let c1 := _promote iterator c in
      (snd <$> deref iterator (_list c1), c1)
  end.

(** [_map.clear(); _list.clear();] *)
Definition clear (c : lru) : lru :=
  {| _map := ∅; _list := []; _capacity := _capacity c |}.

(** *** Sequences of calls *)

Inductive op : Type :=
| Insert (key : K) (value : V)
| InsertOrAssign (key : K) (value : V)
| Find (key : K)
| Get (key : K)
| GetCopy (key : K)
| Contains (key : K)
| TryUpdate (key : K) (func : V → V)
| ForEach (func : key_value_pair → V)
| Resize (capacity : nat)
| Clear
| Size
| Empty
| MaxSize.

Inductive result : Type :=
| RVoid
| RBool (b : bool)
| RIter (it : iterator)
| ROpt (o : option V)
| RSize (n : nat).

Definition exec (o : op) (c : lru) : result * lru :=
  match o with
  | Insert k v => prod_map RBool id (insert k v c)
  | InsertOrAssign k v => prod_map RBool id (insert_or_assign k v c)
  | Find k => prod_map RIter id (find k c)
  | Get k => prod_map ROpt id (get k c)
  | GetCopy k => prod_map ROpt id (get_copy k c)
  | Contains k => prod_map RBool id (contains k c)
  | TryUpdate k f => prod_map RBool id (try_update k f c)
  | ForEach f => (RVoid, for_each f c)
  | Resize n => (RVoid, resize n c)
  | Clear => (RVoid, clear c)
  | Size => (RSize (size c), c)
  | Empty => (RBool (empty c), c)
  | MaxSize => (RSize (max_size c), c)
  end.

(** A sequence of calls: the results in order with the final state, the final
    state alone, and the states the object passes through (one per call). *)
Fixpoint execs (os : list op) (c : lru) : list result * lru :=
  match os with
  | [] => ([], c)
  | o :: os =>
      let '(r, c1) := exec o c in
      let '(rs, c2) := execs os c1 in
      (r :: rs, c2)
  end.

Definition run (os : list op) (c : lru) : lru :=
  foldl (λ c o, (exec o c).2) c os.

Fixpoint trace (os : list op) (c : lru) : list lru :=
  match os with
  | [] => []
  | o :: os => let c' := (exec o c).2 in c' :: trace os c'
  end.

End lru.

Arguments lru K {_ _} V.
Arguments op K V : clear implicits.
Arguments result V : clear implicits.


(** ** The class of [lru.h] at the repository root

    The smaller variant: the same members without [get] and [get_copy]; the
    index is searched through [std::cref(key)] and the callables are
    [std::function] objects. *)

Module Small.
Section lru.
Context `{Countable K} {V : Type}.

Abbreviation mapped_type := V.
Abbreviation value_type := (key_value_pair K V).
Abbreviation list_type := (list_type K V).

Record lru : Type := Lru {
  _map : gmap K iterator;
  _list : list_type;
  _capacity : nat
}.

Definition lru_new (capacity : nat) : lru :=
  {| _map := ∅; _list := []; _capacity := capacity |}.

Definition begin (c : lru) : iterator := begin_ (_list c).
Definition end_ (c : lru) : iterator := End.
Definition empty (c : lru) : bool := bool_decide (_list c = []).
Definition size (c : lru) : nat := length (_list c).
Definition max_size (c : lru) : nat := _capacity c.

Definition _contains (key : K) (c : lru) : bool :=
  bool_decide (is_Some (_map c !! key)).

Definition _promote (iter : iterator) (c : lru) : lru :=
  if decide (iter ≠ begin_ (_list c))
  then {| _map := _map c; _list := splice_begin iter (_list c); _capacity := _capacity c |}
  else c.

Definition _evict (c : lru) : lru :=
  match back (_list c) with
  | Some n =>
      {| _map := delete (node_key n) (_map c);
         _list := pop_back (_list c);
         _capacity := _capacity c |}
  | None => c
  end.

Equations? _prune (capacity : nat) (c : lru) : lru by wf (length (_list c)) lt :=
  _prune capacity c with decide (capacity < length (_list c)) => {
    | left _ => _prune capacity (_evict c)
    | right _ => c }.
Proof.
  unfold _evict, back, pop_back.
  destruct (_list c) as [|n l' _] using rev_ind; simpl in *; [lia|].
  rewrite last_snoc. simpl. rewrite removelast_last, length_app. simpl. lia.
Qed.

Definition _prune_ (c : lru) : lru := _prune (_capacity c) c.

Definition _insert (key : K) (value : V) (c : lru) : lru :=
  let '(l, iter) := emplace_begin key value (_list c) in
  _prune_ {| _map := <[key := begin_ l]> (_map c); _list := l; _capacity := _capacity c |}.

Definition insert (key : K) (value : V) (c : lru) : bool * lru :=
  if _contains key c then (false, c)
  else (true, _insert key value c).

Definition insert_or_assign (key : K) (value : V) (c : lru) : bool * lru :=
  match _map c !! key with
  | Some map_iter =>
      let c1 := {| _map := _map c;
                   _list := write_second map_iter (λ _, value) (_list c);
                   _capacity := _capacity c |} in
      (false, _promote map_iter c1)
  | None => (true, _insert key value c)
  end.

Definition find (key : K) (c : lru) : iterator * lru :=
  match _map c !! key with
  | None => (end_ c, c)
  | Some iter => (iter, _promote iter c)
  end.

Definition contains (key : K) (c : lru) : bool * lru :=
  let '(iter, c1) := find key c in
  (bool_decide (iter ≠ end_ c1), c1).

Definition resize (capacity : nat) (c : lru) : lru :=
  let c1 := _prune capacity c in
  {| _map := _map c1; _list := _list c1; _capacity := capacity |}.

Definition for_each (func : value_type → mapped_type) (c : lru) : lru :=
  {| _map := _map c;
     _list := (λ n : node K V, (n.1, (n.2.1, func n.2))) <$> _list c;
     _capacity := _capacity c |}.

Definition try_update (key : K) (func : mapped_type → mapped_type) (c : lru) : bool * lru :=
  let '(iter, c1) := find key c in
  if decide (iter = end_ c1) then (false, c1)
  else (true, {| _map := _map c1;
                 _list := write_second iter func (_list c1);
                 _capacity := _capacity c1 |}).

Definition clear (c : lru) : lru :=
  {| _map := ∅; _list := []; _capacity := _capacity c |}.

Inductive op : Type :=
| Insert (key : K) (value : V)
| InsertOrAssign (key : K) (value : V)
| Find (key : K)
| Contains (key : K)
| TryUpdate (key : K) (func : V → V)
| ForEach (func : value_type → V)
| Resize (capacity : nat)
| Clear
| Size
| Empty
| MaxSize.

Inductive result : Type :=
| RVoid
| RBool (b : bool)
| RIter (it : iterator)
| RSize (n : nat).

Definition exec (o : op) (c : lru) : result * lru :=
  match o with
  | Insert k v => prod_map RBool id (insert k v c)
  | InsertOrAssign k v => prod_map RBool id (insert_or_assign k v c)
  | Find k => prod_map RIter id (find k c)
  | Contains k => prod_map RBool id (contains k c)
  | TryUpdate k f => prod_map RBool id (try_update k f c)
  | ForEach f => (RVoid, for_each f c)
  | Resize n => (RVoid, resize n c)
  | Clear => (RVoid, clear c)
  | Size => (RSize (size c), c)
  | Empty => (RBool (empty c), c)
  | MaxSize => (RSize (max_size c), c)
  end.

Fixpoint execs (os : list op) (c : lru) : list result * lru :=
  match os with
  | [] => ([], c)
  | o :: os =>
      let '(r, c1) := exec o c in
      let '(rs, c2) := execs os c1 in
      (r :: rs, c2)
  end.

End lru.

Arguments lru K {_ _} V.
Arguments op K V : clear implicits.
Arguments result : clear implicits.
End Small.

(** ** What the claims speak about *)

Section notions.
Context `{Countable K} {V : Type}.
Implicit Types (c : lru K V) (l : list_type K V) (o : op K V) (k : K).

(** The index a recency sequence calls for: every node's key, mapped to the
    iterator of that node. *)
Definition index_entry (n : node K V) : K * iterator :=
  (node_key n, Node (node_addr n)).

Definition index_of l : gmap K iterator :=
  list_to_map (index_entry <$> l).

(** The representation invariant: one node per address, one node per key, and
    the index is the one the sequence calls for. *)
Definition lru_inv c : Prop :=
  NoDup (addrs (_list c)) ∧ NoDup (keys (_list c)) ∧ _map c = index_of (_list c).

#[global] Instance lru_inv_dec c : Decision (lru_inv c).
Proof. unfold lru_inv. apply _. Defined.

(** The bijection between index and sequence, spelled out: a key of the index
    leads to the one position of the sequence whose node has that key, and
    that node sits at the address the index holds; every node is mapped,
    under its key, to its own address. *)
Definition index_resolves c : Prop :=
  ∀ k it, _map c !! k = Some it →
    ∃ i a v, it = Node a ∧ _list c !! i = Some (a, (k, v)) ∧
      ∀ j n, _list c !! j = Some n → node_key n = k ∨ node_addr n = a → j = i.

Definition entries_indexed c : Prop :=
  ∀ n, n ∈ _list c → _map c !! node_key n = Some (Node (node_addr n)).

Definition bijection c : Prop := index_resolves c ∧ entries_indexed c.

(** The key an operation touches, if it takes one. *)
Definition touched o : option K :=
  match o with
  | Insert k _ | InsertOrAssign k _ | Find k | Get k | GetCopy k
  | Contains k | TryUpdate k _ => Some k
  | _ => None
  end.

Definition is_insertion o : bool :=
  match o with
  | Insert _ _ | InsertOrAssign _ _ => true
  | _ => false
  end.

(** The operations that the iteration surface names as the ones altering the
    recency order. *)
Definition named_reordering o : bool :=
  match o with
  | Find _ | Get _ | Contains _ | TryUpdate _ _ | Insert _ _ | InsertOrAssign _ _ => true
  | _ => false
  end.

(** [insert] proper, as opposed to [insert_or_assign]. *)
Definition is_insert o : bool :=
  match o with
  | Insert _ _ => true
  | _ => false
  end.

(** The named ones together with [get_copy]. *)
Definition reordering o : bool :=
  match o with
  | GetCopy _ => true
  | _ => named_reordering o
  end.

(** How many nodes, counted from the head, an operation that does not reorder
    leaves in the sequence. *)
Definition kept o c : nat :=
  match o with
  | Resize n => n
  | Clear => 0
  | _ => size c
  end.

(** A batch of plain inserts. *)
Definition inserts (kvs : list (K * V)) : list (op K V) :=
  (λ kv, Insert kv.1 kv.2) <$> kvs.

(** A pass over the nodes that leaves every address and key alone. *)
Definition keeps_identity (g : node K V → node K V) : Prop :=
  ∀ n, node_addr (g n) = node_addr n ∧ node_key (g n) = node_key n.

(** The state [try_update] and [insert_or_assign] leave on a present key:
    the node of [k] first, holding the new value, at the address it had. *)
Definition rewritten (a : addr) k (v : V) c : lru K V :=
  {| _map := _map c;
     _list := (a, (k, v)) :: filter (λ n, node_key n ≠ k) (_list c);
     _capacity := _capacity c |}.

(** The smaller class seen inside the larger one. *)
Definition up_state (c : Small.lru K V) : lru K V :=
  {| _map := Small._map c; _list := Small._list c; _capacity := Small._capacity c |}.

Definition up_op (o : Small.op K V) : op K V :=
  match o with
  | Small.Insert k v => Insert k v
  | Small.InsertOrAssign k v => InsertOrAssign k v
  | Small.Find k => Find k
  | Small.Contains k => Contains k
  | Small.TryUpdate k f => TryUpdate k f
  | Small.ForEach f => ForEach f
  | Small.Resize n => Resize n
  | Small.Clear => Clear
  | Small.Size => Size
  | Small.Empty => Empty
  | Small.MaxSize => MaxSize
  end.

Definition up_result (r : Small.result) : result V :=
  match r with
  | Small.RVoid => RVoid
  | Small.RBool b => RBool b
  | Small.RIter it => RIter it
  | Small.RSize n => RSize n
  end.

End notions.

(** ** The cache seen from outside: a capacity and an association list

    What a user observes of a cache is its capacity and the pairs it yields
    from head to tail. The functions below compute, on that view alone, what
    each member function leaves and what it answers. *)

Section model.
Context `{Countable K} {V : Type}.
Implicit Types (k : K) (v : V) (kvs : list (K * V)) (o : op K V).

Definition abstraction (c : lru K V) : nat * list (K * V) :=
  (max_size c, pairs (_list c)).

(** The value listed under [k] (the first one, would there be several). *)
Definition assoc k kvs : option V := (list_to_map kvs : gmap K V) !! k.

Definition others k kvs : list (K * V) := filter (λ kv, kv.1 ≠ k) kvs.

(** A hit moves the pair of [k] in front, its value passed through [g]. *)
Definition model_touch k (g : V → V) kvs : list (K * V) :=
  match assoc k kvs with
  | Some v => (k, g v) :: others k kvs
  | None => kvs
  end.

Definition model_exec o (s : nat * list (K * V)) : nat * list (K * V) :=
  match o with
  | Insert k v =>
      (s.1, if assoc k s.2 is Some _ then s.2 else take s.1 ((k, v) :: s.2))
  | InsertOrAssign k v =>
      (s.1, if assoc k s.2 is Some _ then (k, v) :: others k s.2
            else take s.1 ((k, v) :: s.2))
  | Find k | Get k | GetCopy k | Contains k => (s.1, model_touch k id s.2)
  | TryUpdate k f => (s.1, model_touch k f s.2)
  | ForEach f => (s.1, (λ kv, (kv.1, f kv)) <$> s.2)
  | Resize m => (m, take m s.2)
  | Clear => (s.1, [])
  | Size | Empty | MaxSize => s
  end.

(** The answers, with an iterator reduced to whether it is [end()]. *)
Definition observe (r : result V) : result V :=
  match r with
  | RIter it => RBool (bool_decide (it ≠ End))
  | _ => r
  end.

Definition model_answer o (s : nat * list (K * V)) : result V :=
  match o with
  | Insert k _ | InsertOrAssign k _ => RBool (bool_decide (assoc k s.2 = None))
  | Find k | Contains k | TryUpdate k _ => RBool (bool_decide (is_Some (assoc k s.2)))
  | Get k | GetCopy k => ROpt (assoc k s.2)
  | ForEach _ | Resize _ | Clear => RVoid
  | Size => RSize (length s.2)
  | Empty => RBool (bool_decide (s.2 = []))
  | MaxSize => RSize s.1
  end.

Fixpoint model_execs (os : list (op K V)) (s : nat * list (K * V))
  : list (result V) * (nat * list (K * V)) :=
  match os with
  | [] => ([], s)
  | o :: os =>
      let '(rs, s') := model_execs os (model_exec o s) in
      (model_answer o s :: rs, s')
  end.

Definition is_resize o : bool :=
  match o with
  | Resize _ => true
  | _ => false
  end.

End model.

(** ** The scenarios of the test suite, on integer keys and values *)

Definition cache_zero : lru nat nat := lru_new 0.

(** Capacity 2 holding [2 -> 20] (head) and [1 -> 10] (tail). *)
Definition cache_ab : lru nat nat :=
  run [Insert 1 10; Insert 2 20] (lru_new 2).

(** Capacity 3 holding [3 -> 30], [2 -> 20], [1 -> 10], head first. *)
Definition cache_abc : lru nat nat :=
  run [Insert 1 10; Insert 2 20; Insert 3 30] (lru_new 3).

(** Goals that a decision procedure settles by evaluation. *)
Ltac by_evaluation := apply (bool_decide_unpack _); vm_compute; exact I.

(** ** Facts about the list primitives *)

Section std_list_facts.
Context {K V : Type} `{EqDecision K}.
Implicit Types (l : list_type K V) (n : node K V) (a : addr) (k : K) (v : V).

Lemma allocate_fresh l : allocate l ∉ addrs l.
Proof.
  unfold allocate. intros Hin. apply max_list_elem_of_le in Hin. lia.
Qed.

Lemma addrs_in l n : n ∈ l → node_addr n ∈ addrs l.
Proof. intros Hn. unfold addrs. apply list_elem_of_fmap. eauto. Qed.

Lemma keys_in l n : n ∈ l → node_key n ∈ keys l.
Proof. intros Hn. unfold keys. apply list_elem_of_fmap. eauto. Qed.

Lemma splice_begin_perm it l : splice_begin it l ≡ₚ l.
Proof. unfold splice_begin. apply filter_app_complement. Qed.

Lemma filter_at_iter_absent a l :
  a ∉ addrs l → filter (at_iter (Node a)) l = [] ∧ filter (λ n, ¬ at_iter (Node a) n) l = l.
Proof.
  induction l as [|n l IH]; [done|]. intros Hnotin.
  apply not_elem_of_cons in Hnotin as [Hne Hnotin]. destruct (IH Hnotin) as [IH1 IH2].
  rewrite !filter_cons. unfold at_iter at 1 3.
  rewrite decide_False by congruence.
  rewrite decide_True by congruence. by rewrite IH1, IH2.
Qed.

Lemma filter_key_absent k l :
  k ∉ keys l → filter (λ n, node_key n ≠ k) l = l.
Proof.
  induction l as [|n l IH]; [done|]. intros Hnotin.
  apply not_elem_of_cons in Hnotin as [Hne Hnotin].
  rewrite filter_cons, decide_True by congruence. by rewrite IH.
Qed.

Lemma filter_at_iter_present n l :
  NoDup (addrs l) → n ∈ l → filter (at_iter (Node (node_addr n))) l = [n].
Proof.
  induction l as [|n0 l IH]; intros Ha Hin.
  { by apply elem_of_nil in Hin. }
  apply NoDup_cons in Ha as [Ha1 Ha2]. rewrite filter_cons.
  apply elem_of_cons in Hin as [->|Hin].
  - rewrite decide_True by done.
    by destruct (filter_at_iter_absent _ _ Ha1) as [-> _].
  - rewrite decide_False; [by apply IH|].
    intros [= E]. apply Ha1. rewrite E. by apply addrs_in.
Qed.

Lemma filter_not_at_iter_key a k v l :
  NoDup (addrs l) → NoDup (keys l) → (a, (k, v)) ∈ l →
  filter (λ n, ¬ at_iter (Node a) n) l = filter (λ n, node_key n ≠ k) l.
Proof.
  induction l as [|n0 l IH]; intros Ha Hk Hin.
  { by apply elem_of_nil in Hin. }
  apply NoDup_cons in Ha as [Ha1 Ha2]. apply NoDup_cons in Hk as [Hk1 Hk2].
  rewrite !filter_cons. apply elem_of_cons in Hin as [<-|Hin].
  - rewrite decide_False by (intros Hn; by apply Hn).
    rewrite decide_False by (intros Hn; by apply Hn).
    destruct (filter_at_iter_absent _ _ Ha1) as [_ Hrest].
    unfold node_addr in Hrest. simpl in Hrest. rewrite Hrest.
    by rewrite filter_key_absent.
  - rewrite decide_True.
    2:{ intros [= E]. apply Ha1. rewrite E. by apply (addrs_in _ _ Hin). }
    rewrite decide_True.
    2:{ intros E. apply Hk1. rewrite E. by apply (keys_in _ _ Hin). }
    f_equal. by apply IH.
Qed.

(** Relinking the node that holds [k] in front: that node first, the others
    behind it in the order they had. *)
Lemma splice_begin_touch a k v l :
  NoDup (addrs l) → NoDup (keys l) → (a, (k, v)) ∈ l →
  splice_begin (Node a) l = (a, (k, v)) :: filter (λ n, node_key n ≠ k) l.
Proof.
  intros Ha Hk Hin. unfold splice_begin.
  pose proof (filter_at_iter_present (a, (k, v)) l Ha Hin) as Hfront.
  unfold node_addr at 1 in Hfront. simpl in Hfront. rewrite Hfront.
  by rewrite (filter_not_at_iter_key a k v l Ha Hk Hin).
Qed.

Lemma pop_back_take l : pop_back l = take (length l - 1) l.
Proof.
  unfold pop_back. destruct l as [|n l _] using rev_ind; [done|].
  rewrite removelast_last, length_app. simpl.
  replace (length l + 1 - 1) with (length l) by lia.
  by rewrite take_app_length.
Qed.

End std_list_facts.

(** ** Facts about the index of a sequence *)

Section index_facts.
Context `{Countable K} {V : Type}.
Implicit Types (l : list_type K V) (n : node K V) (a : addr) (k : K) (v : V).

Lemma index_entries_keys l : (index_entry <$> l).*1 = keys l.
Proof. unfold keys. rewrite <- list_fmap_compose. by apply list_fmap_ext. Qed.

Lemma index_of_cons n l :
  index_of (n :: l) = <[node_key n := Node (node_addr n)]> (index_of l).
Proof. done. Qed.

Lemma index_of_lookup l k it :
  NoDup (keys l) →
  index_of l !! k = Some it ↔ ∃ a v, it = Node a ∧ (a, (k, v)) ∈ l.
Proof.
  intros Hk. unfold index_of.
  rewrite <- elem_of_list_to_map by (by rewrite index_entries_keys).
  rewrite list_elem_of_fmap. split.
  - intros ([a [k' v]] & [= -> ->] & Hin). by exists a, v.
  - intros (a & v & -> & Hin). by exists (a, (k, v)).
Qed.

Lemma index_of_lookup_None l k : index_of l !! k = None ↔ k ∉ keys l.
Proof.
  unfold index_of. rewrite <- not_elem_of_list_to_map. by rewrite index_entries_keys.
Qed.

Lemma index_of_perm l l' : NoDup (keys l) → l ≡ₚ l' → index_of l = index_of l'.
Proof.
  intros Hk Hp. unfold index_of. apply list_to_map_proper.
  - by rewrite index_entries_keys.
  - by apply fmap_Permutation.
Qed.

Lemma index_of_snoc_delete l n :
  node_key n ∉ keys l → delete (node_key n) (index_of (l ++ [n])) = index_of l.
Proof.
  induction l as [|n0 l IH]; intros Hk.
  - unfold index_of. simpl. by rewrite delete_insert_eq, delete_empty.
  - apply not_elem_of_cons in Hk as [Hne Hk]. simpl.
    rewrite !index_of_cons, delete_insert_ne by done. by rewrite IH.
Qed.

End index_facts.

(** ** The private members *)

Section private_members.
Context `{Countable K} {V : Type}.
Implicit Types (c : lru K V) (l : list_type K V) (n : node K V) (k : K) (v : V).

Lemma lru_inv_new C : lru_inv (lru_new (K:=K) (V:=V) C).
Proof. repeat split; simpl; constructor. Qed.

Lemma lru_inv_lookup c k it :
  lru_inv c → _map c !! k = Some it ↔ ∃ a v, it = Node a ∧ (a, (k, v)) ∈ _list c.
Proof. intros (_ & Hk & ->). by apply index_of_lookup. Qed.

Lemma lru_inv_lookup_None c k : lru_inv c → _map c !! k = None ↔ k ∉ keys (_list c).
Proof. intros (_ & _ & ->). apply index_of_lookup_None. Qed.

Lemma lru_inv_present c k :
  lru_inv c → k ∈ keys (_list c) → ∃ a v, _map c !! k = Some (Node a) ∧ (a, (k, v)) ∈ _list c.
Proof.
  intros Hinv Hin. apply list_elem_of_fmap in Hin as ([a [k' v]] & -> & Hin).
  exists a, v. split; [|done]. apply lru_inv_lookup; eauto.
Qed.

(** [_promote] on the iterator of a live node: the node goes first, the
    others keep their order; index and capacity are not touched. *)
Lemma _promote_list c a k v :
  lru_inv c → (a, (k, v)) ∈ _list c →
  _list (_promote (Node a) c) = (a, (k, v)) :: filter (λ n, node_key n ≠ k) (_list c).
Proof.
  intros (Ha & Hk & _) Hin. unfold _promote. case_decide as Hbegin; simpl.
  - by apply splice_begin_touch.
  - destruct (_list c) as [|[a0 [k0 v0]] l]; [by apply elem_of_nil in Hin|].
    injection Hbegin as ->.
    apply NoDup_cons in Ha as [Ha1 _]. apply NoDup_cons in Hk as [Hk1 _].
    apply elem_of_cons in Hin as [[= -> ->]|Hin].
    + rewrite filter_cons, decide_False by (intros Hn; by apply Hn).
      by rewrite (filter_key_absent _ _ Hk1).
    + exfalso. apply Ha1. by apply (addrs_in _ _ Hin).
Qed.

Lemma _promote_map it c : _map (_promote it c) = _map c.
Proof. unfold _promote. by case_decide. Qed.

Lemma _promote_capacity it c : _capacity (_promote it c) = _capacity c.
Proof. unfold _promote. by case_decide. Qed.

Lemma _promote_perm it c : _list (_promote it c) ≡ₚ _list c.
Proof. unfold _promote. case_decide; [apply splice_begin_perm|done]. Qed.

Lemma lru_inv_perm c c' :
  _map c' = _map c → _list c' ≡ₚ _list c → lru_inv c → lru_inv c'.
Proof.
  intros Hm Hp (Ha & Hk & Hi). repeat split.
  - unfold addrs. by rewrite Hp.
  - unfold keys. by rewrite Hp.
  - rewrite Hm, Hi. by apply index_of_perm.
Qed.

Lemma lru_inv_promote it c : lru_inv c → lru_inv (_promote it c).
Proof. apply lru_inv_perm; [apply _promote_map|apply _promote_perm]. Qed.

Lemma _evict_list c : _list (_evict c) = pop_back (_list c).
Proof.
  unfold _evict, back. destruct (last (_list c)) eqn:E; [done|].
  apply last_None in E. by rewrite E.
Qed.

Lemma _evict_capacity c : _capacity (_evict c) = _capacity c.
Proof. unfold _evict. by destruct (back (_list c)). Qed.

Lemma lru_inv_evict c : lru_inv c → lru_inv (_evict c).
Proof.
  intros Hinv. unfold _evict, back, pop_back.
  destruct (last (_list c)) as [n|] eqn:E; [|done].
  apply last_Some in E as [l E]. destruct Hinv as (Ha & Hk & Hi).
  unfold lru_inv. simpl. rewrite E in *. rewrite removelast_last.
  unfold addrs, keys in *. rewrite fmap_app in Ha. rewrite fmap_app in Hk.
  apply NoDup_app in Ha as (Ha & _ & _). apply NoDup_app in Hk as (Hk & Hfresh & _).
  repeat split; [done..|]. rewrite Hi. apply index_of_snoc_delete.
  intros Hin. apply (Hfresh _ Hin). simpl. by left.
Qed.

(** The eviction loop keeps the first [capacity] nodes and drops the rest. *)
Lemma _prune_list capacity c : _list (_prune capacity c) = take capacity (_list c).
Proof.
  funelim (_prune capacity c).
  - match goal with IH : _list _ = _ |- _ => rewrite IH end.
    rewrite _evict_list, pop_back_take, take_take. f_equal. lia.
  - rewrite take_ge; [done|lia].
Qed.

Lemma _prune_capacity capacity c : _capacity (_prune capacity c) = _capacity c.
Proof.
  funelim (_prune capacity c); [|done].
  match goal with IH : _capacity _ = _ |- _ => rewrite IH end.
  apply _evict_capacity.
Qed.

Lemma lru_inv_prune capacity c : lru_inv c → lru_inv (_prune capacity c).
Proof.
  funelim (_prune capacity c); [|done].
  intros Hinv. match goal with IH : lru_inv _ → _ |- _ => apply IH end.
  by apply lru_inv_evict.
Qed.

End private_members.

(** ** Writes through an iterator *)

Section writes.
Context `{Countable K} {V : Type}.
Implicit Types (c : lru K V) (l : list_type K V) (n : node K V) (k : K) (v : V).

Lemma keeps_identity_addrs g l : keeps_identity g → addrs (g <$> l) = addrs l.
Proof.
  intros Hg. unfold addrs. rewrite <- list_fmap_compose.
  apply list_fmap_ext. intros _ n _. apply Hg.
Qed.

Lemma keeps_identity_keys g l : keeps_identity g → keys (g <$> l) = keys l.
Proof.
  intros Hg. unfold keys. rewrite <- list_fmap_compose.
  apply list_fmap_ext. intros _ n _. apply Hg.
Qed.

Lemma keeps_identity_index g l : keeps_identity g → index_of (g <$> l) = index_of l.
Proof.
  intros Hg. unfold index_of. f_equal. rewrite <- list_fmap_compose.
  apply list_fmap_ext. intros _ n _. unfold index_entry. simpl.
  by destruct (Hg n) as [-> ->].
Qed.

Lemma lru_inv_keeps_identity g c c' :
  keeps_identity g → _map c' = _map c → _list c' = g <$> _list c →
  lru_inv c → lru_inv c'.
Proof.
  intros Hg Hm Hl (Ha & Hk & Hi). unfold lru_inv. rewrite Hm, Hl.
  by rewrite keeps_identity_addrs, keeps_identity_keys, keeps_identity_index.
Qed.

Lemma write_second_keeps_identity it (f : V → V) :
  keeps_identity (λ n, if decide (at_iter it n) then (n.1, (n.2.1, f n.2.2)) else n).
Proof. intros n. by case_decide. Qed.

Lemma for_each_keeps_identity (func : K * V → V) :
  keeps_identity (λ n, (n.1, (n.2.1, func n.2))).
Proof. by intros n. Qed.

Lemma write_second_absent a (f : V → V) l :
  a ∉ addrs l → write_second (Node a) f l = l.
Proof.
  intros Ha. unfold write_second. rewrite <- (list_fmap_id l) at 2.
  apply list_fmap_ext. intros i n Hn. rewrite decide_False; [done|].
  intros [= E]. apply Ha. rewrite <- E. apply addrs_in.
  by eapply list_elem_of_lookup_2.
Qed.

Lemma write_second_elem a k v (f : V → V) l :
  (a, (k, v)) ∈ l → (a, (k, f v)) ∈ write_second (Node a) f l.
Proof.
  intros Hin. unfold write_second. apply list_elem_of_fmap.
  exists (a, (k, v)). split; [|done]. by rewrite decide_True.
Qed.

Lemma write_second_others a k (f : V → V) l :
  (∀ n, n ∈ l → node_addr n = a → node_key n = k) →
  filter (λ n, node_key n ≠ k) (write_second (Node a) f l)
  = filter (λ n, node_key n ≠ k) l.
Proof.
  unfold write_second. induction l as [|n l IH]; intros Hat; [done|].
  rewrite fmap_cons, !filter_cons.
  rewrite IH by (intros n' Hn'; apply Hat; by right).
  destruct (decide (at_iter (Node a) n)) as [Hn|Hn]; [|done]. injection Hn as Hn.
  pose proof (Hat n ltac:(by left) Hn) as Hkey.
  rewrite !decide_False; [done|..]; intros Hne; by apply Hne.
Qed.

Lemma unique_addr a k v l n :
  NoDup (addrs l) → (a, (k, v)) ∈ l → n ∈ l → node_addr n = a → n = (a, (k, v)).
Proof.
  intros Ha Hin Hn Hat.
  pose proof (filter_at_iter_present (a, (k, v)) l Ha Hin) as Hone.
  assert (n ∈ filter (at_iter (Node (node_addr (a, (k, v))))) l) as Hmem.
  { apply list_elem_of_filter. split; [|done]. unfold at_iter. by rewrite Hat. }
  rewrite Hone in Hmem. by apply list_elem_of_singleton in Hmem.
Qed.

Lemma deref_head a (kv : K * V) l : deref (Node a) ((a, kv) :: l) = Some kv.
Proof. unfold deref. rewrite filter_cons, decide_True; done. Qed.

End writes.

(** ** The public members *)

Section public_members.
Context `{Countable K} {V : Type}.
Implicit Types (c : lru K V) (l : list_type K V) (n : node K V) (k : K) (v : V).

Lemma _contains_present c k : lru_inv c → k ∈ keys (_list c) → _contains k c = true.
Proof.
  intros Hinv Hin. destruct (lru_inv_present c k Hinv Hin) as (a & v & Hm & _).
  unfold _contains. apply bool_decide_eq_true. by rewrite Hm.
Qed.

Lemma _contains_absent c k : lru_inv c → k ∉ keys (_list c) → _contains k c = false.
Proof.
  intros Hinv Hin. apply (lru_inv_lookup_None c k Hinv) in Hin.
  unfold _contains. apply bool_decide_eq_false. rewrite Hin. by intros [? ?].
Qed.

Lemma _insert_list k v c :
  _list (_insert k v c) = take (_capacity c) ((allocate (_list c), (k, v)) :: _list c).
Proof. unfold _insert, _prune_. simpl. by rewrite _prune_list. Qed.

Lemma _insert_capacity k v c : _capacity (_insert k v c) = _capacity c.
Proof. unfold _insert, _prune_. simpl. by rewrite _prune_capacity. Qed.

Lemma lru_inv_insert k v c :
  lru_inv c → k ∉ keys (_list c) → lru_inv (_insert k v c).
Proof.
  intros (Ha & Hk & Hi) Hfresh. unfold _insert, _prune_. simpl.
  apply lru_inv_prune. repeat split; simpl.
  - apply NoDup_cons. split; [apply allocate_fresh|done].
  - apply NoDup_cons. by split.
  - by rewrite index_of_cons, Hi.
Qed.

Lemma insert_present k v c :
  lru_inv c → k ∈ keys (_list c) → insert k v c = (false, c).
Proof. intros Hinv Hin. unfold insert. by rewrite _contains_present. Qed.

Lemma insert_absent k v c :
  lru_inv c → k ∉ keys (_list c) → insert k v c = (true, _insert k v c).
Proof. intros Hinv Hin. unfold insert. by rewrite _contains_absent. Qed.

Lemma find_absent k c :
  lru_inv c → k ∉ keys (_list c) → find k c = (End, c).
Proof.
  intros Hinv Hin. apply (lru_inv_lookup_None c k Hinv) in Hin.
  unfold find. by rewrite Hin.
Qed.

Lemma find_present a k v c :
  lru_inv c → (a, (k, v)) ∈ _list c → find k c = (Node a, _promote (Node a) c).
Proof.
  intros Hinv Hin. unfold find.
  assert (_map c !! k = Some (Node a)) as -> by (apply lru_inv_lookup; eauto). done.
Qed.

Lemma get_absent k c :
  lru_inv c → k ∉ keys (_list c) → get k c = (None, c).
Proof.
  intros Hinv Hin. apply (lru_inv_lookup_None c k Hinv) in Hin.
  unfold get. by rewrite Hin.
Qed.

Lemma get_present a k v c :
  lru_inv c → (a, (k, v)) ∈ _list c → get k c = (Some v, _promote (Node a) c).
Proof.
  intros Hinv Hin. unfold get.
  assert (_map c !! k = Some (Node a)) as -> by (apply lru_inv_lookup; eauto).
  simpl. by rewrite (_promote_list c a k v Hinv Hin), deref_head.
Qed.

Lemma get_copy_get k c : get_copy k c = get k c.
Proof. done. Qed.

Lemma contains_absent k c :
  lru_inv c → k ∉ keys (_list c) → contains k c = (false, c).
Proof.
  intros Hinv Hin. unfold contains. by rewrite find_absent.
Qed.

Lemma contains_present a k v c :
  lru_inv c → (a, (k, v)) ∈ _list c → contains k c = (true, _promote (Node a) c).
Proof.
  intros Hinv Hin. unfold contains. by rewrite (find_present a k v).
Qed.

Lemma try_update_absent k f c :
  lru_inv c → k ∉ keys (_list c) → try_update k f c = (false, c).
Proof.
  intros Hinv Hin. unfold try_update. rewrite find_absent by done.
  by rewrite decide_True.
Qed.

Lemma try_update_present a k v f c :
  lru_inv c → (a, (k, v)) ∈ _list c → try_update k f c = (true, rewritten a k (f v) c).
Proof.
  intros Hinv Hin. unfold try_update. rewrite (find_present a k v) by done.
  rewrite decide_False by done. f_equal. unfold rewritten.
  rewrite _promote_map, _promote_capacity, (_promote_list c a k v Hinv Hin).
  f_equal. unfold write_second. rewrite fmap_cons, decide_True by done. simpl.
  f_equal. apply write_second_absent. intros Ha.
  apply list_elem_of_fmap in Ha as (n & Hat & Hn).
  apply list_elem_of_filter in Hn as [Hne Hn]. destruct Hinv as (Hnd & _).
  apply Hne. by rewrite (unique_addr a k v (_list c) n Hnd Hin Hn).
Qed.

Lemma insert_or_assign_absent k v c :
  lru_inv c → k ∉ keys (_list c) → insert_or_assign k v c = (true, _insert k v c).
Proof.
  intros Hinv Hin. apply (lru_inv_lookup_None c k Hinv) in Hin.
  unfold insert_or_assign. by rewrite Hin.
Qed.

Lemma insert_or_assign_present a k v0 v c :
  lru_inv c → (a, (k, v0)) ∈ _list c →
  insert_or_assign k v c = (false, rewritten a k v c).
Proof.
  intros Hinv Hin. unfold insert_or_assign.
  assert (_map c !! k = Some (Node a)) as -> by (apply lru_inv_lookup; eauto).
  f_equal. set (c1 := Lru _ _ _).
  assert (lru_inv c1) as Hinv1.
  { eapply (lru_inv_keeps_identity _ c c1); [apply write_second_keeps_identity|done..]. }
  assert ((a, (k, v)) ∈ _list c1) as Hin1.
  { apply (write_second_elem a k v0 (λ _, v)), Hin. }
  pose proof (_promote_map (Node a) c1) as Hm.
  pose proof (_promote_capacity (Node a) c1) as Hc.
  pose proof (_promote_list c1 a k v Hinv1 Hin1) as Hl.
  unfold c1 in Hl at 2. simpl in Hl, Hm, Hc.
  rewrite (write_second_others a k (λ _, v) (_list c)) in Hl.
  - unfold rewritten. destruct (_promote (Node a) c1). simpl in *. by subst.
  - intros n Hn Hat. destruct Hinv as (Hnd & _).
    by rewrite (unique_addr a k v0 (_list c) n Hnd Hin Hn).
Qed.

End public_members.

(** ** Invariants along a sequence of calls *)

Section invariants.
Context `{Countable K} {V : Type}.
Implicit Types (c : lru K V) (l : list_type K V) (n : node K V) (k : K) (v : V)
  (o : op K V) (os : list (op K V)).

Lemma trace_Forall (P : lru K V → Prop) os c :
  (∀ o c, P c → P (exec o c).2) → P c → Forall P (trace os c).
Proof.
  intros Hstep. revert c. induction os as [|o os IH]; intros c Hc; simpl.
  - constructor.
  - constructor; [by apply Hstep|]. by apply IH, Hstep.
Qed.

Lemma run_invariant (P : lru K V → Prop) os c :
  (∀ o c, P c → P (exec o c).2) → P c → P (run os c).
Proof.
  intros Hstep. revert c. induction os as [|o os IH]; intros c Hc; simpl; [done|].
  by apply IH, Hstep.
Qed.

Lemma lru_inv_same_containers c c' :
  _map c' = _map c → _list c' = _list c → lru_inv c → lru_inv c'.
Proof. unfold lru_inv. by intros -> ->. Qed.

Lemma lru_inv_exec o c : lru_inv c → lru_inv (exec o c).2.
Proof.
  intros Hinv. destruct o as [k v|k v|k|k|k|k|k f|f|n| | | |]; simpl; try done.
  - unfold insert. destruct (_contains k c) eqn:E; simpl; [done|].
    apply lru_inv_insert; [done|]. apply lru_inv_lookup_None; [done|].
    apply bool_decide_eq_false in E. by apply eq_None_not_Some.
  - unfold insert_or_assign. destruct (_map c !! k) as [it|] eqn:E; simpl.
    + apply lru_inv_promote.
      eapply (lru_inv_keeps_identity _ c); [apply write_second_keeps_identity|done..].
    + apply lru_inv_insert; [done|]. by apply lru_inv_lookup_None.
  - unfold find. destruct (_map c !! k); simpl; [by apply lru_inv_promote|done].
  - unfold get. destruct (_map c !! k); simpl; [by apply lru_inv_promote|done].
  - unfold get_copy. destruct (_map c !! k); simpl; [by apply lru_inv_promote|done].
  - unfold contains, find. destruct (_map c !! k); simpl; [by apply lru_inv_promote|done].
  - unfold try_update, find. destruct (_map c !! k) as [it|]; simpl; [|done].
    case_decide; simpl; [by apply lru_inv_promote|].
    eapply (lru_inv_keeps_identity _ (_promote it c));
      [apply write_second_keeps_identity|done..|by apply lru_inv_promote].
  - eapply (lru_inv_keeps_identity _ c); [apply for_each_keeps_identity|done..].
  - eapply (lru_inv_same_containers (_prune n c)); [done..|by apply lru_inv_prune].
  - apply (lru_inv_new 0).
Qed.

Lemma lru_inv_run C os : lru_inv (run os (lru_new (K:=K) (V:=V) C)).
Proof. apply run_invariant; [apply lru_inv_exec|apply lru_inv_new]. Qed.

Lemma _promote_size it c : size (_promote it c) = size c.
Proof. unfold size. apply Permutation_length, _promote_perm. Qed.

Lemma _insert_bounded k v c : size (_insert k v c) ≤ max_size (_insert k v c).
Proof.
  unfold size, max_size. rewrite _insert_list, _insert_capacity, length_take. lia.
Qed.

Lemma bounded_exec o c : size c ≤ max_size c → size (exec o c).2 ≤ max_size (exec o c).2.
Proof.
  intros Hb. destruct o as [k v|k v|k|k|k|k|k f|f|n| | | |]; simpl; try done.
  - unfold insert. destruct (_contains k c); simpl; [done|apply _insert_bounded].
  - unfold insert_or_assign. destruct (_map c !! k) as [it|]; simpl; [|apply _insert_bounded].
    rewrite _promote_size. unfold max_size. rewrite _promote_capacity.
    unfold size, write_second. simpl. by rewrite length_fmap.
  - unfold find. destruct (_map c !! k); simpl; [|done].
    rewrite _promote_size. unfold max_size. by rewrite _promote_capacity.
  - unfold get. destruct (_map c !! k); simpl; [|done].
    rewrite _promote_size. unfold max_size. by rewrite _promote_capacity.
  - unfold get_copy. destruct (_map c !! k); simpl; [|done].
    rewrite _promote_size. unfold max_size. by rewrite _promote_capacity.
  - unfold contains, find. destruct (_map c !! k); simpl; [|done].
    rewrite _promote_size. unfold max_size. by rewrite _promote_capacity.
  - unfold try_update, find. destruct (_map c !! k) as [it|]; simpl; [|done].
    pose proof (_promote_size it c) as Hs. pose proof (_promote_capacity it c) as Hc.
    unfold size, max_size in *.
    case_decide; simpl; [lia|]. unfold write_second. rewrite length_fmap. lia.
  - unfold size, max_size in *. simpl. by rewrite length_fmap.
  - unfold size, max_size. simpl. rewrite _prune_list, length_take. lia.
  - unfold size, max_size. simpl. lia.
Qed.

(** Every state a constructed cache can be brought into satisfies what the
    contracts below assume of a state. *)
Lemma reachable_state C os :
  lru_inv (run os (lru_new (K:=K) (V:=V) C))
  ∧ size (run os (lru_new (K:=K) (V:=V) C)) ≤ max_size (run os (lru_new (K:=K) (V:=V) C)).
Proof.
  split; [apply lru_inv_run|].
  apply (run_invariant (λ c, size c ≤ max_size c)); [apply bounded_exec|].
  unfold size, max_size. simpl. lia.
Qed.

Lemma lru_inv_bijection c : lru_inv c → bijection c.
Proof.
  intros Hinv. split.
  - intros k it Hm. apply (lru_inv_lookup c k it Hinv) in Hm as (a & v & -> & Hin).
    apply list_elem_of_lookup in Hin as [i Hi]. exists i, a, v. repeat split; [done|].
    destruct Hinv as (Ha & Hk & _). intros j n Hj [Hkey|Hat].
    + apply (NoDup_lookup (keys (_list c)) j i k Hk); unfold keys;
        rewrite list_lookup_fmap; [rewrite Hj|rewrite Hi]; simpl; by f_equal.
    + apply (NoDup_lookup (addrs (_list c)) j i a Ha); unfold addrs;
        rewrite list_lookup_fmap; [rewrite Hj|rewrite Hi]; simpl; by f_equal.
  - intros [a [k v]] Hin. apply lru_inv_lookup; eauto.
Qed.

End invariants.

(** ** The claims *)

Section claims.
Context `{Countable K} {V : Type}.
Implicit Types (c : lru K V) (l : list_type K V) (n : node K V) (k : K) (v : V)
  (o : op K V) (os : list (op K V)).

(** C1. Capacity bound: along every sequence of public operations on a cache
    constructed with capacity [C], [size() <= max_size()] holds in the state
    each operation returns in (and in the constructed cache itself). *)
Theorem capacity_bound (C : nat) os :
  Forall (λ c, size c ≤ max_size c) (lru_new C :: trace os (lru_new C)).
Proof.
  constructor; [unfold size, max_size; simpl; lia|].
  apply trace_Forall; [apply bounded_exec|]. unfold size, max_size. simpl. lia.
Qed.

(** C2. Bijection between Index and Recency Sequence: in the state every
    public operation returns in, each key of the Index resolves to the one
    node of the sequence that has this key, found at the address the Index
    holds for it, and the key of every node of the sequence is in the Index. *)
Theorem index_sequence_bijection (C : nat) os :
  Forall bijection (lru_new C :: trace os (lru_new C)).
Proof.
  apply (Forall_impl lru_inv); [|intros c; apply lru_inv_bijection].
  constructor; [apply lru_inv_new|].
  apply trace_Forall; [apply lru_inv_exec|apply lru_inv_new].
Qed.

Lemma filter_others_length k l :
  NoDup (keys l) → k ∈ keys l → S (length (filter (λ n, node_key n ≠ k) l)) = length l.
Proof.
  induction l as [|n l IH]; intros Hk Hin; [by apply elem_of_nil in Hin|].
  apply NoDup_cons in Hk as [Hk1 Hk2]. rewrite filter_cons. simpl.
  destruct (decide (node_key n = k)) as [E|E].
  - rewrite decide_False by (intros Hn; by apply Hn).
    rewrite filter_key_absent; [done|]. by rewrite <- E.
  - rewrite decide_True by done. simpl. f_equal. apply IH; [done|].
    apply elem_of_cons in Hin as [Hin|Hin]; [by subst|done].
Qed.

Lemma touch_present_list c o k :
  lru_inv c → touched o = Some k → k ∈ keys (_list c) → is_insert o = false →
  ∃ a v, _list (exec o c).2 = (a, (k, v)) :: filter (λ n, node_key n ≠ k) (_list c).
Proof.
  intros Hinv Ho Hin Hni.
  destruct (lru_inv_present c k Hinv Hin) as (a & v0 & _ & Hnode).
  pose proof (_promote_list c a k v0 Hinv Hnode) as Hp.
  destruct o as [k' v|k' v|k'|k'|k'|k'|k' f|f|n| | | |]; try done;
    injection Ho as ->; simpl.
  - exists a, v. by rewrite (insert_or_assign_present a k v0 v c Hinv Hnode).
  - exists a, v0. by rewrite (find_present a k v0 c Hinv Hnode).
  - exists a, v0. by rewrite (get_present a k v0 c Hinv Hnode).
  - exists a, v0. by rewrite get_copy_get, (get_present a k v0 c Hinv Hnode).
  - exists a, v0. by rewrite (contains_present a k v0 c Hinv Hnode).
  - exists a, (f v0). by rewrite (try_update_present a k v0 f c Hinv Hnode).
Qed.

Lemma touch_absent_list c o k :
  lru_inv c → touched o = Some k → k ∉ keys (_list c) → is_insertion o = true →
  ∃ v, _list (exec o c).2 = take (max_size c) ((allocate (_list c), (k, v)) :: _list c).
Proof.
  intros Hinv Ho Hin Hi.
  destruct o as [k' v|k' v|k'|k'|k'|k'|k' f|f|n| | | |]; try done;
    injection Ho as ->; simpl; exists v.
  - rewrite (insert_absent k v c Hinv Hin). simpl. by rewrite _insert_list.
  - rewrite (insert_or_assign_absent k v c Hinv Hin). simpl. by rewrite _insert_list.
Qed.

(** C3, amended. Order consistency: in a cache state that satisfies the
    representation invariant and the capacity bound, a touch of a present key
    by [insert_or_assign], [find], [get], [get_copy], [contains] or
    [try_update], and an [insert] or [insert_or_assign] of an absent key into
    a cache of capacity at least one, leave the Entry of that key at the head
    of the sequence, followed by the other entries in the relative order they
    had, cut off at the capacity: what is evicted is taken from the tail. *)
Theorem touch_moves_to_head c o k :
  lru_inv c → size c ≤ max_size c → touched o = Some k →
  (k ∈ keys (_list c) ∧ is_insert o = false)
  ∨ ((k ∉ keys (_list c)) ∧ is_insertion o = true ∧ 1 ≤ max_size c) →
  ∃ a v, _list (exec o c).2
         = (a, (k, v)) :: take (max_size c - 1) (filter (λ n, node_key n ≠ k) (_list c)).
Proof.
  intros Hinv Hb Ho [[Hin Hni]|(Hin & Hi & Hcap)].
  - destruct (touch_present_list c o k Hinv Ho Hin Hni) as (a & v & ->).
    exists a, v. f_equal. rewrite take_ge; [done|].
    destruct Hinv as (_ & Hk & _).
    pose proof (filter_others_length k (_list c) Hk Hin). unfold size in Hb. lia.
  - destruct (touch_absent_list c o k Hinv Ho Hin Hi) as (v & ->).
    exists (allocate (_list c)), v. rewrite filter_key_absent by done.
    destruct (max_size c) as [|m]; [lia|]. simpl. by rewrite Nat.sub_0_r.
Qed.

(** C4. The contract of [insert]: on a present key it returns [false] and
    leaves the whole state as it was; on an absent key it returns [true] and
    leaves the new Entry at the head of the former sequence cut off at the
    capacity, with the Index that this sequence calls for and the capacity
    unchanged; at capacity 0 the size is 0 afterwards. *)
Theorem insert_contract c k v :
  lru_inv c →
  (k ∈ keys (_list c) → insert k v c = (false, c))
  ∧ (k ∉ keys (_list c) →
     ∃ c', insert k v c = (true, c')
       ∧ _list c' = take (max_size c) ((allocate (_list c), (k, v)) :: _list c)
       ∧ _map c' = index_of (_list c')
       ∧ (1 ≤ max_size c → _map c' !! k = Some (begin c'))
       ∧ max_size c' = max_size c
       ∧ size c' = min (max_size c) (S (size c))
       ∧ (max_size c = 0 → size c' = 0)).
Proof.
  intros Hinv. split; intros Hin; [by apply insert_present|].
  exists (_insert k v c). pose proof (lru_inv_insert k v c Hinv Hin) as Hinv'.
  pose proof (_insert_list k v c) as Hl.
  assert (size (_insert k v c) = min (max_size c) (S (size c))) as Hs.
  { unfold size, max_size. by rewrite Hl, length_take. }
  repeat split.
  - by apply insert_absent.
  - done.
  - by destruct Hinv' as (_ & _ & ?).
  - intros Hcap. unfold begin, max_size in *. rewrite Hl.
    destruct (_capacity c) as [|m]; [lia|]. simpl.
    apply (lru_inv_lookup _ _ _ Hinv'). exists (allocate (_list c)), v.
    split; [done|]. rewrite Hl. simpl. by left.
  - apply _insert_capacity.
  - done.
  - intros Hz. rewrite Hs, Hz. done.
Qed.

(** C5. [insert_or_assign] on a present key returns [false], overwrites the
    value in the node the key already has (same address, Index untouched),
    leaves that node at the head with the others behind it in their order,
    keeps size and capacity, and a following [get] of the key yields the new
    value. *)
Theorem insert_or_assign_overwrites c a k v0 v :
  lru_inv c → (a, (k, v0)) ∈ _list c →
  ∃ c', insert_or_assign k v c = (false, c')
    ∧ _list c' = (a, (k, v)) :: filter (λ n, node_key n ≠ k) (_list c)
    ∧ _map c' = _map c
    ∧ size c' = size c
    ∧ max_size c' = max_size c
    ∧ (get k c').1 = Some v.
Proof.
  intros Hinv Hin. exists (rewritten a k v c).
  pose proof (insert_or_assign_present a k v0 v c Hinv Hin) as Hioa.
  repeat split; try done.
  - unfold size, rewritten. simpl. destruct Hinv as (_ & Hk & _).
    apply filter_others_length; [done|]. by apply (keys_in _ _ Hin).
  - assert (lru_inv (rewritten a k v c)) as Hinv'.
    { pose proof (lru_inv_exec (InsertOrAssign k v) c Hinv) as Hstep.
      simpl in Hstep. by rewrite Hioa in Hstep. }
    rewrite (get_present a k v (rewritten a k v c) Hinv'); [done|].
    unfold rewritten. simpl. by left.
Qed.

(** C6. Resize-down: [resize(m)] with [m < size()] leaves exactly the first
    [m] nodes of the sequence (the [m] most recently touched), so the size is
    [m]; the Index is the one of these nodes, and [max_size()] is [m]. *)
Theorem resize_down c (m : nat) :
  lru_inv c → m < size c →
  size (resize m c) = m
  ∧ _list (resize m c) = take m (_list c)
  ∧ _map (resize m c) = index_of (take m (_list c))
  ∧ max_size (resize m c) = m.
Proof.
  intros Hinv Hm. unfold size, max_size, resize in *. simpl.
  rewrite _prune_list, length_take. repeat split; [lia|].
  destruct (lru_inv_prune m c Hinv) as (_ & _ & ->). by rewrite _prune_list.
Qed.

(** C7. Absence is idempotent: [find] of a key that is not in the cache
    returns [end()] and the state it was given, whole: size, order, every
    value and the Index are as before, and there is no Entry for the key. *)
Theorem find_absent_no_effect c k :
  lru_inv c → k ∉ keys (_list c) →
  find k c = (end_ c, c) ∧ k ∉ keys (_list (find k c).2).
Proof.
  intros Hinv Hin. rewrite (find_absent k c Hinv Hin). by split.
Qed.

(** C8, amended. Outside [find], [get], [get_copy], [contains], [try_update],
    [insert] and [insert_or_assign] no operation reorders the sequence:
    [for_each] and the size queries leave the keys and the addresses of the
    nodes as they are, position by position, and [resize] and [clear] only
    cut the sequence off from the tail. *)
Theorem order_kept_outside_touches c o :
  reordering o = false →
  keys (_list (exec o c).2) = take (kept o c) (keys (_list c))
  ∧ addrs (_list (exec o c).2) = take (kept o c) (addrs (_list c)).
Proof.
  assert (∀ A (xs : list A), length xs = size c → xs = take (size c) xs) as Hwhole.
  { intros A xs Hlen. rewrite take_ge; [done|lia]. }
  intros Ho. destruct o as [k v|k v|k|k|k|k|k f|f|m| | | |]; try done; simpl.
  - rewrite keeps_identity_keys, keeps_identity_addrs by apply for_each_keeps_identity.
    split; apply Hwhole; unfold keys, addrs, size; by rewrite length_fmap.
  - rewrite _prune_list. unfold keys, addrs. by rewrite !fmap_take.
  - split; apply Hwhole; unfold keys, addrs, size; by rewrite length_fmap.
  - split; apply Hwhole; unfold keys, addrs, size; by rewrite length_fmap.
  - split; apply Hwhole; unfold keys, addrs, size; by rewrite length_fmap.
Qed.

Lemma inserts_bounded (C : nat) (kvs : list (K * V)) c :
  size c ≤ C → max_size c = C →
  Forall (λ c', size c' ≤ C ∧ max_size c' = C) (trace (inserts kvs) c).
Proof.
  revert c. induction kvs as [|[k v] kvs IH]; intros c Hs Hc; simpl; [constructor|].
  assert (size (insert k v c).2 ≤ C ∧ max_size (insert k v c).2 = C) as [Hs' Hc'].
  { unfold insert. destruct (_contains k c); simpl; [done|].
    pose proof (_insert_bounded k v c) as Hb. unfold max_size in *.
    rewrite _insert_capacity in *. lia. }
  constructor; [done|]. by apply IH.
Qed.

(** C10. [clear()] keeps the capacity: afterwards the sequence and the Index
    are empty and the size is 0, [max_size()] is what it was, and through any
    following inserts the size stays within that capacity. *)
Theorem clear_keeps_capacity c :
  size (clear c) = 0
  ∧ _list (clear c) = []
  ∧ _map (clear c) = ∅
  ∧ max_size (clear c) = max_size c
  ∧ ∀ kvs, Forall (λ c', size c' ≤ max_size c ∧ max_size c' = max_size c)
             (trace (inserts kvs) (clear c)).
Proof.
  repeat split. intros kvs. apply inserts_bounded; [|done].
  unfold size. simpl. lia.
Qed.

End claims.

Section equivalence.
Context `{Countable K} {V : Type}.
Implicit Types (c : Small.lru K V) (o : Small.op K V) (os : list (Small.op K V)).

Lemma up_evict c : up_state (Small._evict c) = _evict (up_state c).
Proof.
  unfold Small._evict, _evict, up_state. simpl. by destruct (back (Small._list c)).
Qed.

Lemma up_prune capacity c :
  up_state (Small._prune capacity c) = _prune capacity (up_state c).
Proof.
  funelim (Small._prune capacity c);
    rewrite (_prune_equation_1 capacity (up_state c)); simpl;
    match goal with Heq : decide _ = _ |- _ => rewrite Heq end; simpl; [|done].
  by rewrite <- up_evict.
Qed.

Lemma up_promote it c : up_state (Small._promote it c) = _promote it (up_state c).
Proof. unfold Small._promote, _promote. simpl. by case_decide. Qed.

Lemma up_insert k v c : up_state (Small._insert k v c) = _insert k v (up_state c).
Proof.
  unfold Small._insert, _insert, Small._prune_, _prune_. simpl. by rewrite up_prune.
Qed.

Lemma up_exec o c :
  exec (up_op o) (up_state c) = prod_map up_result up_state (Small.exec o c).
Proof.
  destruct o as [k v|k v|k|k|k f|f|n| | | |]; simpl; try done.
  - unfold insert, Small.insert, _contains, Small._contains. simpl.
    case_bool_decide; simpl; [done|]. by rewrite up_insert.
  - unfold insert_or_assign, Small.insert_or_assign. simpl.
    destruct (Small._map c !! k) as [it|]; simpl; [|by rewrite up_insert].
    by rewrite up_promote.
  - unfold find, Small.find. simpl.
    destruct (Small._map c !! k) as [it|]; simpl; [|done]. by rewrite up_promote.
  - unfold contains, Small.contains, find, Small.find. simpl.
    destruct (Small._map c !! k) as [it|]; simpl; [|done]. by rewrite up_promote.
  - unfold try_update, Small.try_update, find, Small.find. simpl.
    destruct (Small._map c !! k) as [it|]; simpl; [|done].
    rewrite <- up_promote. unfold end_, Small.end_.
    by destruct (decide (it = End)).
  - unfold resize, Small.resize. rewrite <- up_prune. done.
Qed.

Lemma up_execs os c :
  execs (up_op <$> os) (up_state c)
  = prod_map (fmap up_result) up_state (Small.execs os c).
Proof.
  revert c. induction os as [|o os IH]; intros c; simpl; [done|].
  rewrite up_exec. destruct (Small.exec o c) as [r c1]. simpl.
  rewrite IH. by destruct (Small.execs os c1).
Qed.

(** C9. The two classes agree on the operations they share: the same calls,
    made on caches constructed with the same capacity, return the same results
    and leave the same Index, the same sequence of nodes and the same
    capacity; and the operations of the smaller class are a proper part of
    those of the larger one, which alone has [get] and [get_copy]. *)
Theorem implementations_agree (C : nat) os :
  execs (up_op <$> os) (lru_new C)
  = prod_map (fmap up_result) up_state (Small.execs os (Small.lru_new C))
  ∧ Inj (=) (=) (up_op (K:=K) (V:=V))
  ∧ ∀ o k, up_op o ≠ Get k ∧ up_op o ≠ GetCopy k.
Proof.
  split; [apply (up_execs os (Small.lru_new C))|]. split.
  - intros o1 o2 Heq. destruct o1, o2; simpl in Heq; congruence.
  - intros o k. by destruct o.
Qed.

End equivalence.

(** ** The scenarios and the claims at concrete caches *)

Example scenario_a :
  pairs (_list (run [Insert 1 10; Insert 2 20; Insert 3 30] (lru_new 2)))
  = [(3, 30); (2, 20)].
Proof. reflexivity. Qed.

Example scenario_b :
  pairs (_list (run [Insert 1 10; Insert 2 20; Get 1; Insert 3 30] (lru_new 2)))
  = [(3, 30); (1, 10)].
Proof. reflexivity. Qed.

Example scenario_c :
  (execs [Insert 1 1; InsertOrAssign 1 2; Size; Get 1] (lru_new 2)).1
  = [RBool true; RBool false; RSize 1; ROpt (Some 2)].
Proof. reflexivity. Qed.

Example scenario_d :
  (execs [Insert 1 1; Size] cache_zero).1 = [RBool true; RSize 0].
Proof. reflexivity. Qed.

Example scenario_e : pairs (_list (resize 1 cache_abc)) = [(3, 30)].
Proof. reflexivity. Qed.

(** C3 as stated fails at capacity 0: the cache is empty and satisfies the
    invariants, key 1 is absent, [insert(1, 10)] reports success, and the
    sequence it leaves has no head at all, so no Entry of key 1 is there. *)
Lemma touch_at_capacity_zero :
  lru_inv cache_zero
  ∧ size cache_zero ≤ max_size cache_zero
  ∧ touched (Insert 1 10 : op nat nat) = Some 1
  ∧ (1 ∉ keys (_list cache_zero))
  ∧ (exec (Insert 1 10) cache_zero).1 = RBool true
  ∧ ¬ ∃ n, head (_list (exec (Insert 1 10) cache_zero).2) = Some n ∧ node_key n = 1.
Proof.
  split; [by_evaluation|]. split; [by_evaluation|]. split; [reflexivity|].
  split; [by_evaluation|]. split; [reflexivity|].
  intros (n & Hhead & _). vm_compute in Hhead. discriminate Hhead.
Qed.

Lemma touch_moves_to_head_witness :
  lru_inv cache_ab
  ∧ size cache_ab ≤ max_size cache_ab
  ∧ touched (Insert 3 30 : op nat nat) = Some 3
  ∧ ((3 ∉ keys (_list cache_ab)) ∧ is_insertion (Insert 3 30 : op nat nat) = true
     ∧ 1 ≤ max_size cache_ab)
  ∧ (∃ a v, _list (exec (Insert 3 30) cache_ab).2
            = (a, (3, v))
              :: take (max_size cache_ab - 1)
                   (filter (λ n, node_key n ≠ 3) (_list cache_ab)))
  ∧ touched (Find 1 : op nat nat) = Some 1
  ∧ (1 ∈ keys (_list cache_ab) ∧ is_insert (Find 1 : op nat nat) = false)
  ∧ (∃ a v, _list (exec (Find 1) cache_ab).2
            = (a, (1, v))
              :: take (max_size cache_ab - 1)
                   (filter (λ n, node_key n ≠ 1) (_list cache_ab))).
Proof.
  assert (lru_inv cache_ab) as Hinv by by_evaluation.
  assert (size cache_ab ≤ max_size cache_ab) as Hb by by_evaluation.
  assert (3 ∉ keys (_list cache_ab)) as Habsent by by_evaluation.
  assert (1 ∈ keys (_list cache_ab)) as Hpresent by by_evaluation.
  assert (1 ≤ max_size cache_ab) as Hcap by by_evaluation.
  split; [exact Hinv|]. split; [exact Hb|]. split; [reflexivity|].
  split; [split; [exact Habsent|split; [reflexivity|exact Hcap]]|].
  split.
  { apply (touch_moves_to_head cache_ab (Insert 3 30) 3 Hinv Hb eq_refl).
    right. split; [exact Habsent|split; [reflexivity|exact Hcap]]. }
  split; [reflexivity|]. split; [split; [exact Hpresent|reflexivity]|].
  apply (touch_moves_to_head cache_ab (Find 1) 1 Hinv Hb eq_refl).
  left. split; [exact Hpresent|reflexivity].
Defined.

Lemma insert_contract_witness :
  lru_inv cache_ab
  ∧ insert 1 99 cache_ab = (false, cache_ab)
  ∧ ∃ c', insert 3 30 cache_ab = (true, c')
      ∧ _list c' = take (max_size cache_ab) ((allocate (_list cache_ab), (3, 30)) :: _list cache_ab)
      ∧ _map c' = index_of (_list c')
      ∧ (1 ≤ max_size cache_ab → _map c' !! 3 = Some (begin c'))
      ∧ max_size c' = max_size cache_ab
      ∧ size c' = min (max_size cache_ab) (S (size cache_ab))
      ∧ (max_size cache_ab = 0 → size c' = 0).
Proof.
  assert (lru_inv cache_ab) as Hinv by by_evaluation.
  split; [exact Hinv|]. split.
  - apply (proj1 (insert_contract cache_ab 1 99 Hinv)). by_evaluation.
  - apply (proj2 (insert_contract cache_ab 3 30 Hinv)). by_evaluation.
Defined.

Lemma insert_or_assign_overwrites_witness :
  lru_inv cache_ab
  ∧ (1, (1, 10)) ∈ _list cache_ab
  ∧ ∃ c', insert_or_assign 1 11 cache_ab = (false, c')
      ∧ _list c' = (1, (1, 11)) :: filter (λ n, node_key n ≠ 1) (_list cache_ab)
      ∧ _map c' = _map cache_ab
      ∧ size c' = size cache_ab
      ∧ max_size c' = max_size cache_ab
      ∧ (get 1 c').1 = Some 11.
Proof.
  assert (lru_inv cache_ab) as Hinv by by_evaluation.
  assert ((1, (1, 10)) ∈ _list cache_ab) as Hin by by_evaluation.
  split; [exact Hinv|]. split; [exact Hin|].
  exact (insert_or_assign_overwrites cache_ab 1 1 10 11 Hinv Hin).
Defined.

Lemma resize_down_witness :
  lru_inv cache_abc
  ∧ 1 < size cache_abc
  ∧ size (resize 1 cache_abc) = 1
  ∧ _list (resize 1 cache_abc) = take 1 (_list cache_abc)
  ∧ _map (resize 1 cache_abc) = index_of (take 1 (_list cache_abc))
  ∧ max_size (resize 1 cache_abc) = 1.
Proof.
  assert (lru_inv cache_abc) as Hinv by by_evaluation.
  assert (1 < size cache_abc) as Hlt by by_evaluation.
  split; [exact Hinv|]. split; [exact Hlt|].
  exact (resize_down cache_abc 1 Hinv Hlt).
Defined.

Lemma find_absent_no_effect_witness :
  lru_inv cache_ab
  ∧ (7 ∉ keys (_list cache_ab))
  ∧ find 7 cache_ab = (end_ cache_ab, cache_ab)
  ∧ 7 ∉ keys (_list (find 7 cache_ab).2).
Proof.
  assert (lru_inv cache_ab) as Hinv by by_evaluation.
  assert (7 ∉ keys (_list cache_ab)) as Habsent by by_evaluation.
  split; [exact Hinv|]. split; [exact Habsent|].
  exact (find_absent_no_effect cache_ab 7 Hinv Habsent).
Defined.

(** C8 as stated fails on [get_copy]: it is not among the operations named as
    altering the order, and on the cache holding keys 2 and 1 (head first)
    [get_copy(1)] returns the value and leaves the order 1, 2. *)
Lemma get_copy_reorders :
  named_reordering (GetCopy 1 : op nat nat) = false
  ∧ keys (_list cache_ab) = [2; 1]
  ∧ (exec (GetCopy 1) cache_ab).1 = ROpt (Some 10)
  ∧ keys (_list (exec (GetCopy 1) cache_ab).2) = [1; 2]
  ∧ keys (_list (exec (GetCopy 1) cache_ab).2) ≠ keys (_list cache_ab).
Proof. repeat split; try reflexivity. vm_compute. discriminate. Qed.

Lemma order_kept_outside_touches_witness :
  reordering (Resize 1 : op nat nat) = false
  ∧ keys (_list (exec (Resize 1) cache_abc).2)
    = take (kept (Resize 1) cache_abc) (keys (_list cache_abc))
  ∧ addrs (_list (exec (Resize 1) cache_abc).2)
    = take (kept (Resize 1) cache_abc) (addrs (_list cache_abc)).
Proof.
  split; [reflexivity|].
  exact (order_kept_outside_touches cache_abc (Resize 1) eq_refl).
Defined.

(** ** The class against its outside view *)

Section refinement.
Context `{Countable K} {V : Type}.
Implicit Types (c : lru K V) (l : list_type K V) (k : K) (v : V)
  (o : op K V) (os : list (op K V)).

Lemma pairs_keys l : (pairs l).*1 = keys l.
Proof.
  unfold pairs, keys. rewrite <- list_fmap_compose. by apply list_fmap_ext.
Qed.

Lemma pairs_others k l :
  pairs (filter (λ n, node_key n ≠ k) l) = others k (pairs l).
Proof.
  unfold others, pairs. induction l as [|n l IH]; [done|].
  rewrite (fmap_cons snd n l), !filter_cons. unfold node_key at 1.
  destruct (decide (n.2.1 ≠ k)); [rewrite fmap_cons|]; by rewrite IH.
Qed.

Lemma assoc_present a k v l :
  NoDup (keys l) → (a, (k, v)) ∈ l → assoc k (pairs l) = Some v.
Proof.
  intros Hk Hin. unfold assoc. apply elem_of_list_to_map_1.
  - by rewrite pairs_keys.
  - unfold pairs. apply list_elem_of_fmap. by exists (a, (k, v)).
Qed.

Lemma assoc_absent k l : k ∉ keys l → assoc k (pairs l) = None.
Proof.
  intros Hk. unfold assoc. apply not_elem_of_list_to_map_1. by rewrite pairs_keys.
Qed.

Lemma abstraction_promote a k v c :
  lru_inv c → (a, (k, v)) ∈ _list c →
  abstraction (_promote (Node a) c) = (max_size c, (k, v) :: others k (pairs (_list c))).
Proof.
  intros Hinv Hin. unfold abstraction, max_size.
  rewrite _promote_capacity, (_promote_list c a k v Hinv Hin). simpl.
  by rewrite pairs_others.
Qed.

Lemma abstraction_rewritten a k v c :
  abstraction (rewritten a k v c) = (max_size c, (k, v) :: others k (pairs (_list c))).
Proof. unfold abstraction, max_size, rewritten. simpl. by rewrite pairs_others. Qed.

Lemma abstraction_insert k v c :
  abstraction (_insert k v c) = (max_size c, take (max_size c) ((k, v) :: pairs (_list c))).
Proof.
  unfold abstraction, max_size. rewrite _insert_capacity, _insert_list.
  unfold pairs. by rewrite fmap_take.
Qed.

(** One call: the state it leaves and the answer it gives are the ones
    computed on the outside view. *)
Lemma exec_refines o c :
  lru_inv c →
  abstraction (exec o c).2 = model_exec o (abstraction c)
  ∧ observe (exec o c).1 = model_answer o (abstraction c).
Proof.
  intros Hinv. pose proof Hinv as (_ & Hnd & _).
  destruct o as [k v|k v|k|k|k|k|k f|f|m| | | |]; simpl;
    try (destruct (decide (k ∈ keys (_list c))) as [Hin|Hout];
      [destruct (lru_inv_present c k Hinv Hin) as (a & v0 & _ & Hnode);
       pose proof (assoc_present a k v0 (_list c) Hnd Hnode) as Ha
      |pose proof (assoc_absent k (_list c) Hout) as Ha]);
    unfold model_touch; try rewrite Ha; simpl.
  - by rewrite insert_present.
  - rewrite insert_absent by done. simpl. by rewrite abstraction_insert.
  - rewrite (insert_or_assign_present a k v0 v c Hinv Hnode). simpl.
    by rewrite abstraction_rewritten.
  - rewrite insert_or_assign_absent by done. simpl. by rewrite abstraction_insert.
  - rewrite (find_present a k v0 c Hinv Hnode). simpl.
    by rewrite (abstraction_promote a k v0).
  - by rewrite find_absent.
  - rewrite (get_present a k v0 c Hinv Hnode). simpl.
    by rewrite (abstraction_promote a k v0).
  - by rewrite get_absent.
  - rewrite get_copy_get, (get_present a k v0 c Hinv Hnode). simpl.
    by rewrite (abstraction_promote a k v0).
  - by rewrite get_copy_get, get_absent.
  - rewrite (contains_present a k v0 c Hinv Hnode). simpl.
    by rewrite (abstraction_promote a k v0).
  - by rewrite contains_absent.
  - rewrite (try_update_present a k v0 f c Hinv Hnode). simpl.
    by rewrite abstraction_rewritten.
  - by rewrite try_update_absent.
  - split; [|done]. unfold abstraction, max_size, pairs. simpl. f_equal.
    rewrite <- !list_fmap_compose. by apply list_fmap_ext.
  - split; [|done]. unfold abstraction, max_size, pairs. simpl.
    by rewrite _prune_list, fmap_take.
  - done.
  - split; [done|]. unfold size, pairs. by rewrite length_fmap.
  - split; [done|]. unfold empty. f_equal. apply bool_decide_ext.
    unfold pairs. by destruct (_list c).
  - done.
Qed.

End refinement.

(** ** Further properties of the member functions *)

Section lookups.
Context `{Countable K} {V : Type}.
Implicit Types (c : lru K V) (l : list_type K V) (k : K) (v : V)
  (o : op K V) (os : list (op K V)).

(** X1. A whole sequence of calls on a constructed cache gives the answers
    (an iterator taken as hit or miss) and leaves the capacity and the pairs,
    head to tail, that the list model computes: a hit moves the pair in front,
    a new pair is put in front and the list cut to the capacity, [resize] cuts
    the list, [for_each] rewrites the values in place. *)
Theorem execs_refine (C : nat) os :
  prod_map (fmap observe) abstraction (execs os (lru_new C))
  = model_execs os (C, []).
Proof.
  enough (∀ c, lru_inv c →
            prod_map (fmap observe) abstraction (execs os c)
            = model_execs os (abstraction c)) as Hfrom.
  { apply (Hfrom (lru_new C)), lru_inv_new. }
  induction os as [|o os IH]; intros c Hinv; simpl; [done|].
  destruct (exec_refines o c Hinv) as [Hstate Hanswer].
  pose proof (lru_inv_exec o c Hinv) as Hinv'.
  destruct (exec o c) as [r c1]. simpl in *.
  specialize (IH c1 Hinv'). rewrite <- Hstate, <- IH, <- Hanswer.
  by destruct (execs os c1).
Qed.

(** X2. A lookup of a key that is not in the cache by [get], [get_copy],
    [contains] or [try_update] answers empty or [false] and returns the
    state it was given, whole; the callable of [try_update] is not run. *)
Theorem absent_lookups_no_effect c k (f : V → V) :
  lru_inv c → k ∉ keys (_list c) →
  get k c = (None, c) ∧ get_copy k c = (None, c)
  ∧ contains k c = (false, c) ∧ try_update k f c = (false, c).
Proof.
  intros Hinv Hout. split; [by apply get_absent|].
  split; [change (get_copy k c) with (get k c); by apply get_absent|].
  split; [by apply contains_absent|by apply try_update_absent].
Qed.

(** X3. [get] and [get_copy] answer with a value exactly when the cache
    holds the key with that value. *)
Theorem get_returns_stored c k v :
  lru_inv c →
  ((get k c).1 = Some v ↔ (k, v) ∈ pairs (_list c))
  ∧ ((get_copy k c).1 = Some v ↔ (k, v) ∈ pairs (_list c)).
Proof.
  intros Hinv. change (get_copy k c) with (get k c).
  assert ((get k c).1 = Some v ↔ (k, v) ∈ pairs (_list c)) as Hget; [|done].
  split.
  - intros Hsome. destruct (decide (k ∈ keys (_list c))) as [Hin|Hout].
    + destruct (lru_inv_present c k Hinv Hin) as (a & v0 & _ & Hnode).
      rewrite (get_present a k v0 c Hinv Hnode) in Hsome. injection Hsome as <-.
      unfold pairs. apply list_elem_of_fmap. by exists (a, (k, v0)).
    + by rewrite get_absent in Hsome.
  - intros Hin. unfold pairs in Hin.
    apply list_elem_of_fmap in Hin as ([a kv] & Heq & Hnode). simpl in Heq.
    subst kv. by rewrite (get_present a k v c Hinv Hnode).
Qed.

(** X4. [contains], and the private [_contains] that guards [insert], answer
    [true] exactly for the keys of the sequence. *)
Theorem contains_iff_present c k :
  lru_inv c →
  ((contains k c).1 = true ↔ k ∈ keys (_list c))
  ∧ (_contains k c = true ↔ k ∈ keys (_list c)).
Proof.
  intros Hinv. destruct (decide (k ∈ keys (_list c))) as [Hin|Hout].
  - destruct (lru_inv_present c k Hinv Hin) as (a & v0 & _ & Hnode).
    rewrite (contains_present a k v0 c Hinv Hnode), _contains_present by done.
    done.
  - rewrite contains_absent, _contains_absent by done. simpl. split; split; done.
Qed.

(** X5. [find] of a present key returns the iterator of the node that held
    the key before the call; afterwards this iterator is [begin()] and it
    dereferences to the key with its stored value. *)
Theorem find_returns_begin c k :
  lru_inv c → k ∈ keys (_list c) →
  ∃ a v, (a, (k, v)) ∈ _list c
    ∧ (find k c).1 = Node a
    ∧ begin (find k c).2 = Node a
    ∧ deref (Node a) (_list (find k c).2) = Some (k, v).
Proof.
  intros Hinv Hin. destruct (lru_inv_present c k Hinv Hin) as (a & v & _ & Hnode).
  exists a, v. rewrite (find_present a k v c Hinv Hnode). simpl.
  unfold begin. rewrite (_promote_list c a k v Hinv Hnode).
  repeat split; [done|]. apply deref_head.
Qed.

Lemma _insert_head k v c :
  1 ≤ max_size c → (allocate (_list c), (k, v)) ∈ _list (_insert k v c).
Proof.
  intros Hcap. rewrite _insert_list. unfold max_size in Hcap.
  destruct (_capacity c) as [|m]; [lia|]. simpl. by left.
Qed.

(** X6. A successful [insert] can be read back: with a capacity of at least
    one, [insert] of a key that is not in the cache answers [true] and a
    following [get] of the key answers the inserted value. *)
Theorem insert_then_get c k v :
  lru_inv c → k ∉ keys (_list c) → 1 ≤ max_size c →
  (insert k v c).1 = true ∧ (get k (insert k v c).2).1 = Some v.
Proof.
  intros Hinv Hout Hcap. rewrite insert_absent by done. simpl. split; [done|].
  rewrite (get_present (allocate (_list c)) k v); [done|..].
  - by apply lru_inv_insert.
  - by apply _insert_head.
Qed.

(** X7. A second [insert] of a key does not replace its value: on a key the
    cache holds, [insert] answers [false] and a following [get] still answers
    the value stored before. *)
Theorem double_insert_keeps_value c k v0 v :
  lru_inv c → (k, v0) ∈ pairs (_list c) →
  (insert k v c).1 = false ∧ (get k (insert k v c).2).1 = Some v0.
Proof.
  intros Hinv Hin. assert (k ∈ keys (_list c)) as Hkey.
  { rewrite <- pairs_keys. apply list_elem_of_fmap. by exists (k, v0). }
  rewrite insert_present by done. simpl. split; [done|].
  unfold pairs in Hin. apply list_elem_of_fmap in Hin as ([a kv] & Heq & Hnode).
  simpl in Heq. subst kv. by rewrite (get_present a k v0 c Hinv Hnode).
Qed.

(** X8. [insert_or_assign] can always be read back when the capacity is at
    least one: whether the key was in the cache or not, a following [get]
    answers the value just given. *)
Theorem insert_or_assign_then_get c k v :
  lru_inv c → 1 ≤ max_size c →
  (get k (insert_or_assign k v c).2).1 = Some v.
Proof.
  intros Hinv Hcap.
  pose proof (lru_inv_exec (InsertOrAssign k v) c Hinv) as Hinv'. simpl in Hinv'.
  destruct (decide (k ∈ keys (_list c))) as [Hin|Hout].
  - destruct (lru_inv_present c k Hinv Hin) as (a & v0 & _ & Hnode).
    rewrite (insert_or_assign_present a k v0 v c Hinv Hnode) in *. simpl in *.
    rewrite (get_present a k v); [done..|]. unfold rewritten. simpl. by left.
  - rewrite insert_or_assign_absent in * by done. simpl in *.
    rewrite (get_present (allocate (_list c)) k v); [done..|].
    by apply _insert_head.
Qed.

End lookups.

Section updates.
Context `{Countable K} {V : Type}.
Implicit Types (c : lru K V) (l : list_type K V) (k : K) (v : V)
  (o : op K V) (os : list (op K V)).





(** X10. [try_update] on a key the cache holds answers [true], leaves the
    pair of the key in front with the callable applied to its value and the
    other pairs behind it as they were, and a following [get] answers the
    updated value. *)
Theorem try_update_applies c k v (f : V → V) :
  lru_inv c → (k, v) ∈ pairs (_list c) →
  (try_update k f c).1 = true
  ∧ pairs (_list (try_update k f c).2) = (k, f v) :: others k (pairs (_list c))
  ∧ (get k (try_update k f c).2).1 = Some (f v).
Proof.
  intros Hinv Hin. unfold pairs in Hin.
  apply list_elem_of_fmap in Hin as ([a kv] & Heq & Hnode). simpl in Heq. subst kv.
  pose proof (lru_inv_exec (TryUpdate k f) c Hinv) as Hinv'. simpl in Hinv'.
  rewrite (try_update_present a k v f c Hinv Hnode) in *. simpl in *.
  split; [done|]. split.
  - unfold rewritten. simpl. by rewrite pairs_others.
  - rewrite (get_present a k (f v)); [done..|]. unfold rewritten. simpl. by left.
Qed.

(** X11. [for_each] rewrites every value by the callable, applied to the
    pair as it stood, in place: the keys and their order are as before, and a
    following [get] of a key answers the rewritten value. *)
Theorem for_each_applies c (func : K * V → V) k v :
  lru_inv c → (k, v) ∈ pairs (_list c) →
  pairs (_list (for_each func c)) = (λ kv, (kv.1, func kv)) <$> pairs (_list c)
  ∧ keys (_list (for_each func c)) = keys (_list c)
  ∧ (get k (for_each func c)).1 = Some (func (k, v)).
Proof.
  intros Hinv Hin. unfold pairs in Hin.
  apply list_elem_of_fmap in Hin as ([a kv] & Heq & Hnode). simpl in Heq. subst kv.
  pose proof (lru_inv_exec (ForEach func) c Hinv) as Hinv'. simpl in Hinv'.
  split; [|split].
  - unfold pairs, for_each. simpl. rewrite <- !list_fmap_compose.
    by apply list_fmap_ext.
  - apply keeps_identity_keys, for_each_keeps_identity.
  - rewrite (get_present a k (func (k, v))); [done..|].
    unfold for_each. simpl. apply list_elem_of_fmap. by exists (a, (k, v)).
Qed.

(** X12. The index has one mapping per node: [size()] is the number of keys
    in the index, and the keys of the index are the keys of the sequence. *)
Theorem size_is_index_size c :
  lru_inv c →
  size c = base.size (_map c) ∧ dom (_map c) = list_to_set (keys (_list c)).
Proof.
  intros (_ & Hk & ->). unfold index_of, size. split.
  - rewrite map_size_list_to_map by (by rewrite index_entries_keys).
    by rewrite length_fmap.
  - by rewrite dom_list_to_map_L, index_entries_keys.
Qed.

Lemma exec_capacity o c : is_resize o = false → _capacity (exec o c).2 = _capacity c.
Proof.
  intros Ho. destruct o as [k v|k v|k|k|k|k|k f|f|m| | | |]; try done; simpl.
  - unfold insert. destruct (_contains k c); simpl; [done|apply _insert_capacity].
  - unfold insert_or_assign. destruct (_map c !! k); simpl;
      [by rewrite _promote_capacity|apply _insert_capacity].
  - unfold find. destruct (_map c !! k); simpl; [apply _promote_capacity|done].
  - unfold get. destruct (_map c !! k); simpl; [apply _promote_capacity|done].
  - unfold get_copy. destruct (_map c !! k); simpl; [apply _promote_capacity|done].
  - unfold contains, find. destruct (_map c !! k); simpl; [apply _promote_capacity|done].
  - unfold try_update, find. destruct (_map c !! k); simpl; [|done].
    case_decide; simpl; apply _promote_capacity.
Qed.

(** X13. Only [resize] changes the capacity: through any sequence of
    operations without a [resize], [max_size()] answers at every point what
    it answered at the start. *)
Theorem capacity_changed_only_by_resize c os :
  Forall (λ o, is_resize o = false) os →
  Forall (λ c', max_size c' = max_size c) (trace os c).
Proof.
  intros Hos. revert c. induction Hos as [|o os Ho _ IH]; intros c; simpl.
  - constructor.
  - pose proof (exec_capacity o c Ho) as Hcap. constructor; [done|].
    unfold max_size in *. rewrite <- Hcap. apply IH.
Qed.

Lemma _prune_fits capacity c : size c ≤ capacity → _prune capacity c = c.
Proof.
  intros Hfit. rewrite _prune_equation_1. unfold size in Hfit.
  destruct (decide (capacity < length (_list c))); [lia|done].
Qed.

(** X14. [resize] to a capacity that the present entries fit in evicts
    nothing: sequence and index are as before and [max_size()] is the new
    capacity. *)
Theorem resize_up_keeps_entries c (m : nat) :
  size c ≤ m →
  _list (resize m c) = _list c ∧ _map (resize m c) = _map c
  ∧ max_size (resize m c) = m.
Proof. intros Hfit. unfold resize. by rewrite _prune_fits. Qed.

(** X15. The four lookups leave one and the same state, in which the nodes
    are those of before, rearranged: no entry is added, dropped or changed,
    and index and capacity are untouched. *)
Theorem lookups_keep_entries c k :
  (get k c).2 = (find k c).2 ∧ (get_copy k c).2 = (find k c).2
  ∧ (contains k c).2 = (find k c).2
  ∧ _list (find k c).2 ≡ₚ _list c
  ∧ _map (find k c).2 = _map c
  ∧ max_size (find k c).2 = max_size c.
Proof.
  unfold contains, get_copy, get, find, max_size.
  destruct (_map c !! k) as [it|]; simpl; [|done].
  repeat split; [apply _promote_perm|apply _promote_map|apply _promote_capacity].
Qed.

End updates.

Section nodes.
Context `{Countable K} {V : Type}.
Implicit Types (c : lru K V) (l : list_type K V) (n : node K V) (k : K) (v : V)
  (a : addr) (o : op K V) (os : list (op K V)).

Lemma origin_keeps_identity g a k v l :
  keeps_identity g → (a, (k, v)) ∈ g <$> l → ∃ v0, (a, (k, v0)) ∈ l.
Proof.
  intros Hg Hin. apply list_elem_of_fmap in Hin as ([a0 [k0 v0]] & Heq & Hin).
  destruct (Hg (a0, (k0, v0))) as [Ha Hk]. rewrite <- Heq in Ha, Hk.
  unfold node_addr, node_key in Ha, Hk. simpl in Ha, Hk. subst. by exists v0.
Qed.

Lemma origin_promote it c a k v :
  (a, (k, v)) ∈ _list (_promote it c) → (a, (k, v)) ∈ _list c.
Proof. intros Hin. by rewrite <- (_promote_perm it c). Qed.

Lemma origin_insert k0 v0 c a k v :
  k0 ∉ keys (_list c) → (a, (k, v)) ∈ _list (_insert k0 v0 c) →
  (a, (k, v)) ∈ _list c ∨ ((k ∉ keys (_list c)) ∧ a = allocate (_list c)).
Proof.
  intros Hout Hin. rewrite _insert_list in Hin. apply subseteq_take in Hin.
  apply elem_of_cons in Hin as [[= -> -> ->]|Hin]; [right|left]; done.
Qed.

(** Where a node found after a call comes from: it is a node the sequence
    had, with the key it had, or the one node allocated for a new key. *)
Lemma node_origin o c a k v :
  lru_inv c → (a, (k, v)) ∈ _list (exec o c).2 →
  (∃ v0, (a, (k, v0)) ∈ _list c) ∨ ((k ∉ keys (_list c)) ∧ a = allocate (_list c)).
Proof.
  intros Hinv Hin.
  destruct o as [k0 v0|k0 v0|k0|k0|k0|k0|k0 f|f|m| | | |]; simpl in Hin;
    try (left; by exists v).
  - unfold insert in Hin. destruct (_contains k0 c) eqn:E; simpl in Hin.
    { left. by exists v. }
    apply origin_insert in Hin as [Hin|Hin]; [left; by exists v|by right|].
    apply lru_inv_lookup_None; [done|].
    apply bool_decide_eq_false in E. by apply eq_None_not_Some.
  - unfold insert_or_assign in Hin. destruct (_map c !! k0) as [it|] eqn:E; simpl in Hin.
    + apply origin_promote in Hin. simpl in Hin. left.
      by apply (origin_keeps_identity _ a k v (_list c)
                  (write_second_keeps_identity it (λ _, v0))).
    + apply origin_insert in Hin as [Hin|Hin]; [left; by exists v|by right|].
      by apply lru_inv_lookup_None.
  - unfold find in Hin. destruct (_map c !! k0); simpl in Hin; left; exists v;
      [by apply origin_promote in Hin|done].
  - unfold get in Hin. destruct (_map c !! k0); simpl in Hin; left; exists v;
      [by apply origin_promote in Hin|done].
  - unfold get_copy in Hin. destruct (_map c !! k0); simpl in Hin; left; exists v;
      [by apply origin_promote in Hin|done].
  - unfold contains, find in Hin. destruct (_map c !! k0); simpl in Hin; left; exists v;
      [by apply origin_promote in Hin|done].
  - left. unfold try_update, find in Hin. destruct (_map c !! k0) as [it|]; simpl in Hin;
      [|by exists v].
    destruct (decide (it = end_ (_promote it c))); simpl in Hin.
    + exists v. by apply origin_promote in Hin.
    + apply (origin_keeps_identity _ a k v _ (write_second_keeps_identity it f)) in Hin
        as [v1 Hin]. exists v1. by apply origin_promote in Hin.
  - left. by apply (origin_keeps_identity _ a k v (_list c) (for_each_keeps_identity f)).
  - left. exists v. rewrite _prune_list in Hin. by apply subseteq_take in Hin.
  - by apply elem_of_nil in Hin.
Qed.

Lemma unique_key a a' k v v' l :
  NoDup (keys l) → (a, (k, v)) ∈ l → (a', (k, v')) ∈ l → a' = a.
Proof.
  intros Hk Hin Hin'.
  apply list_elem_of_lookup in Hin as [i Hi]. apply list_elem_of_lookup in Hin' as [j Hj].
  assert (j = i) as ->.
  { apply (NoDup_lookup (keys l) j i k Hk); unfold keys; rewrite list_lookup_fmap;
      [by rewrite Hj|by rewrite Hi]. }
  rewrite Hi in Hj. by injection Hj.
Qed.

(** X16. Iterators stay valid: through any single operation an entry that
    is in the cache before and after is held by the same node, so an iterator
    obtained for it earlier still points at it; an address that is new after
    the call belongs to a key that was not in the cache. *)
Theorem entries_keep_their_node c o a a' k v v' :
  lru_inv c → (a, (k, v)) ∈ _list c → (a', (k, v')) ∈ _list (exec o c).2 →
  a' = a.
Proof.
  intros Hinv Hin Hin'. pose proof Hinv as (_ & Hk & _).
  destruct (node_origin o c a' k v' Hinv Hin') as [[v0 Hold]|[Hout _]].
  - by apply (unique_key a a' k v v0 (_list c)).
  - exfalso. apply Hout. by apply (keys_in _ _ Hin).
Qed.

(** X17. What was touched last is not the next to go: after a touch of a
    present key, an [insert] of a new key into a cache of capacity at least
    two leaves the touched key in the cache. *)
Theorem touched_survives_next_insert c o k k' v :
  lru_inv c → 2 ≤ max_size c → touched o = Some k → is_insert o = false →
  k ∈ keys (_list c) → k' ∉ keys (_list c) →
  (insert k' v (exec o c).2).1 = true
  ∧ k ∈ keys (_list (insert k' v (exec o c).2).2).
Proof.
  intros Hinv Hcap Ho Hni Hin Hout.
  destruct (touch_present_list c o k Hinv Ho Hin Hni) as (a & v1 & Hl).
  pose proof (lru_inv_exec o c Hinv) as Hinv1.
  assert (max_size (exec o c).2 = max_size c) as Hcap1.
  { apply exec_capacity. by destruct o. }
  assert (k' ∉ keys (_list (exec o c).2)) as Hout1.
  { rewrite Hl. unfold keys. rewrite fmap_cons. apply not_elem_of_cons. split.
    - intros ->. by apply Hout.
    - intros Hmem. apply Hout. apply list_elem_of_fmap in Hmem as (n & -> & Hn).
      apply list_elem_of_filter in Hn as [_ Hn]. by apply keys_in. }
  rewrite insert_absent by done. simpl. split; [done|].
  rewrite _insert_list, Hl. unfold max_size in Hcap1, Hcap. rewrite Hcap1.
  destruct (_capacity c) as [|[|m]]; [lia..|]. simpl. right. by left.
Qed.

Lemma empty_state c : lru_inv c → size c = 0 → c = lru_new (max_size c).
Proof.
  intros (_ & _ & Hi) Hs. unfold size in Hs. apply length_zero_iff_nil in Hs.
  destruct c as [m l cap]. simpl in *. subst. done.
Qed.

(** X18. A cache of capacity 0 is permanently empty: as long as it is not
    resized, every sequence of operations leaves it in the state it was
    constructed in, and every [insert] nonetheless answers [true]. *)
Theorem zero_capacity_stays_empty os k v :
  Forall (λ o, is_resize o = false) os →
  run os (lru_new 0) = lru_new 0
  ∧ insert k v (run os (lru_new 0)) = (true, lru_new 0).
Proof.
  intros Hos.
  assert (∀ o, is_resize o = false → (exec o (lru_new 0)).2 = lru_new (K:=K) (V:=V) 0)
    as Hstep.
  { intros o Ho. pose proof (lru_inv_exec o (lru_new 0) (lru_inv_new 0)) as Hinv.
    pose proof (bounded_exec o (lru_new 0)) as Hb.
    pose proof (exec_capacity o (lru_new 0) Ho) as Hcap.
    unfold max_size in Hb. rewrite Hcap in Hb.
    rewrite (empty_state _ Hinv).
    - unfold max_size. by rewrite Hcap.
    - unfold size, max_size in *. simpl in Hb. lia. }
  assert (run os (lru_new 0) = lru_new (K:=K) (V:=V) 0) as Hrun.
  { induction Hos as [|o os Ho _ IH]; [done|]. simpl. by rewrite (Hstep o Ho). }
  split; [done|]. rewrite Hrun.
  specialize (Hstep (Insert k v) eq_refl). simpl in Hstep.
  assert (_contains k (lru_new (V:=V) 0) = false) as Hmiss.
  { apply bool_decide_eq_false. simpl. rewrite lookup_empty. by intros [? ?]. }
  unfold insert in *. rewrite Hmiss in *. simpl in Hstep. by rewrite Hstep.
Qed.

End nodes.

Section small_class.
Context `{Countable K} {V : Type}.

Lemma execs_run (os : list (op K V)) c : (execs os c).2 = run os c.
Proof.
  revert c. induction os as [|o os IH]; intros c; simpl; [done|].
  rewrite <- IH. destruct (exec o c) as [r c1]. simpl. by destruct (execs os c1).
Qed.

(** X19. The class of [lru.h] keeps the same invariants as the larger one:
    after every sequence of its operations on a constructed cache the size is
    within the capacity and index and sequence are in bijection. *)
Theorem small_class_invariants (C : nat) (os : list (Small.op K V)) :
  Small.size (Small.execs os (Small.lru_new C)).2
  ≤ Small.max_size (Small.execs os (Small.lru_new C)).2
  ∧ lru_inv (up_state (Small.execs os (Small.lru_new C)).2)
  ∧ bijection (up_state (Small.execs os (Small.lru_new C)).2).
Proof.
  pose proof (up_execs os (Small.lru_new C)) as Hup.
  apply (f_equal snd) in Hup. rewrite execs_run in Hup.
  destruct (Small.execs os (Small.lru_new C)) as [rs c]. simpl in *.
  change (up_state (Small.lru_new C)) with (lru_new (K:=K) (V:=V) C) in Hup.
  destruct (reachable_state C (up_op <$> os)) as [Hinv Hb]. rewrite Hup in Hinv, Hb.
  split; [exact Hb|]. split; [done|by apply lru_inv_bijection].
Qed.

End small_class.

(** ** The further properties at concrete caches *)

Lemma absent_lookups_no_effect_witness :
  lru_inv cache_ab
  ∧ (7 ∉ keys (_list cache_ab))
  ∧ get 7 cache_ab = (None, cache_ab) ∧ get_copy 7 cache_ab = (None, cache_ab)
  ∧ contains 7 cache_ab = (false, cache_ab) ∧ try_update 7 S cache_ab = (false, cache_ab).
Proof.
  assert (lru_inv cache_ab) as Hinv by by_evaluation.
  assert (7 ∉ keys (_list cache_ab)) as Hout by by_evaluation.
  split; [exact Hinv|]. split; [exact Hout|].
  exact (absent_lookups_no_effect cache_ab 7 S Hinv Hout).
Defined.

Lemma get_returns_stored_witness :
  lru_inv cache_ab
  ∧ ((get 1 cache_ab).1 = Some 10 ↔ (1, 10) ∈ pairs (_list cache_ab))
  ∧ ((get_copy 1 cache_ab).1 = Some 10 ↔ (1, 10) ∈ pairs (_list cache_ab)).
Proof.
  assert (lru_inv cache_ab) as Hinv by by_evaluation.
  split; [exact Hinv|]. exact (get_returns_stored cache_ab 1 10 Hinv).
Defined.

Lemma contains_iff_present_witness :
  lru_inv cache_ab
  ∧ ((contains 2 cache_ab).1 = true ↔ 2 ∈ keys (_list cache_ab))
  ∧ (_contains 2 cache_ab = true ↔ 2 ∈ keys (_list cache_ab)).
Proof.
  assert (lru_inv cache_ab) as Hinv by by_evaluation.
  split; [exact Hinv|]. exact (contains_iff_present cache_ab 2 Hinv).
Defined.

Lemma find_returns_begin_witness :
  lru_inv cache_ab
  ∧ 1 ∈ keys (_list cache_ab)
  ∧ ∃ a v, (a, (1, v)) ∈ _list cache_ab
      ∧ (find 1 cache_ab).1 = Node a
      ∧ begin (find 1 cache_ab).2 = Node a
      ∧ deref (Node a) (_list (find 1 cache_ab).2) = Some (1, v).
Proof.
  assert (lru_inv cache_ab) as Hinv by by_evaluation.
  assert (1 ∈ keys (_list cache_ab)) as Hin by by_evaluation.
  split; [exact Hinv|]. split; [exact Hin|].
  exact (find_returns_begin cache_ab 1 Hinv Hin).
Defined.

Lemma insert_then_get_witness :
  lru_inv cache_ab
  ∧ (3 ∉ keys (_list cache_ab))
  ∧ 1 ≤ max_size cache_ab
  ∧ (insert 3 30 cache_ab).1 = true
  ∧ (get 3 (insert 3 30 cache_ab).2).1 = Some 30.
Proof.
  assert (lru_inv cache_ab) as Hinv by by_evaluation.
  assert (3 ∉ keys (_list cache_ab)) as Hout by by_evaluation.
  assert (1 ≤ max_size cache_ab) as Hcap by by_evaluation.
  split; [exact Hinv|]. split; [exact Hout|]. split; [exact Hcap|].
  exact (insert_then_get cache_ab 3 30 Hinv Hout Hcap).
Defined.

Lemma double_insert_keeps_value_witness :
  lru_inv cache_ab
  ∧ (1, 10) ∈ pairs (_list cache_ab)
  ∧ (insert 1 99 cache_ab).1 = false
  ∧ (get 1 (insert 1 99 cache_ab).2).1 = Some 10.
Proof.
  assert (lru_inv cache_ab) as Hinv by by_evaluation.
  assert ((1, 10) ∈ pairs (_list cache_ab)) as Hin by by_evaluation.
  split; [exact Hinv|]. split; [exact Hin|].
  exact (double_insert_keeps_value cache_ab 1 10 99 Hinv Hin).
Defined.

Lemma insert_or_assign_then_get_witness :
  lru_inv cache_ab
  ∧ 1 ≤ max_size cache_ab
  ∧ (get 3 (insert_or_assign 3 30 cache_ab).2).1 = Some 30
  ∧ (get 1 (insert_or_assign 1 11 cache_ab).2).1 = Some 11.
Proof.
  assert (lru_inv cache_ab) as Hinv by by_evaluation.
  assert (1 ≤ max_size cache_ab) as Hcap by by_evaluation.
  split; [exact Hinv|]. split; [exact Hcap|]. split.
  - exact (insert_or_assign_then_get cache_ab 3 30 Hinv Hcap).
  - exact (insert_or_assign_then_get cache_ab 1 11 Hinv Hcap).
Defined.


Lemma try_update_applies_witness :
  lru_inv cache_ab
  ∧ (1, 10) ∈ pairs (_list cache_ab)
  ∧ (try_update 1 S cache_ab).1 = true
  ∧ pairs (_list (try_update 1 S cache_ab).2) = (1, 11) :: others 1 (pairs (_list cache_ab))
  ∧ (get 1 (try_update 1 S cache_ab).2).1 = Some 11.
Proof.
  assert (lru_inv cache_ab) as Hinv by by_evaluation.
  assert ((1, 10) ∈ pairs (_list cache_ab)) as Hin by by_evaluation.
  split; [exact Hinv|]. split; [exact Hin|].
  exact (try_update_applies cache_ab 1 10 S Hinv Hin).
Defined.

Lemma for_each_applies_witness :
  lru_inv cache_ab
  ∧ (1, 10) ∈ pairs (_list cache_ab)
  ∧ pairs (_list (for_each (λ kv, kv.1 + kv.2) cache_ab))
    = (λ kv, (kv.1, kv.1 + kv.2)) <$> pairs (_list cache_ab)
  ∧ keys (_list (for_each (λ kv, kv.1 + kv.2) cache_ab)) = keys (_list cache_ab)
  ∧ (get 1 (for_each (λ kv, kv.1 + kv.2) cache_ab)).1 = Some 11.
Proof.
  assert (lru_inv cache_ab) as Hinv by by_evaluation.
  assert ((1, 10) ∈ pairs (_list cache_ab)) as Hin by by_evaluation.
  split; [exact Hinv|]. split; [exact Hin|].
  exact (for_each_applies cache_ab (λ kv, kv.1 + kv.2) 1 10 Hinv Hin).
Defined.

Lemma size_is_index_size_witness :
  lru_inv cache_abc
  ∧ size cache_abc = base.size (_map cache_abc)
  ∧ dom (_map cache_abc) = list_to_set (keys (_list cache_abc)).
Proof.
  assert (lru_inv cache_abc) as Hinv by by_evaluation.
  split; [exact Hinv|]. exact (size_is_index_size cache_abc Hinv).
Defined.

Lemma capacity_changed_only_by_resize_witness :
  Forall (λ o : op nat nat, is_resize o = false) [Insert 3 30; Get 1; Clear]
  ∧ Forall (λ c', max_size c' = max_size cache_ab)
      (trace [Insert 3 30; Get 1; Clear] cache_ab).
Proof.
  assert (Forall (λ o : op nat nat, is_resize o = false) [Insert 3 30; Get 1; Clear])
    as Hos by (repeat constructor).
  split; [exact Hos|].
  exact (capacity_changed_only_by_resize cache_ab [Insert 3 30; Get 1; Clear] Hos).
Defined.

Lemma resize_up_keeps_entries_witness :
  size cache_ab ≤ 5
  ∧ _list (resize 5 cache_ab) = _list cache_ab
  ∧ _map (resize 5 cache_ab) = _map cache_ab
  ∧ max_size (resize 5 cache_ab) = 5.
Proof.
  assert (size cache_ab ≤ 5) as Hfit by by_evaluation.
  split; [exact Hfit|]. exact (resize_up_keeps_entries cache_ab 5 Hfit).
Defined.

Lemma entries_keep_their_node_witness :
  lru_inv cache_ab
  ∧ (1, (1, 10)) ∈ _list cache_ab
  ∧ (1, (1, 11)) ∈ _list (exec (TryUpdate 1 S) cache_ab).2
  ∧ 1 = 1.
Proof.
  assert (lru_inv cache_ab) as Hinv by by_evaluation.
  assert ((1, (1, 10)) ∈ _list cache_ab) as Hin by by_evaluation.
  assert ((1, (1, 11)) ∈ _list (exec (TryUpdate 1 S) cache_ab).2) as Hin' by by_evaluation.
  split; [exact Hinv|]. split; [exact Hin|]. split; [exact Hin'|].
  exact (entries_keep_their_node cache_ab (TryUpdate 1 S) 1 1 1 10 11 Hinv Hin Hin').
Defined.

Lemma touched_survives_next_insert_witness :
  lru_inv cache_ab
  ∧ 2 ≤ max_size cache_ab
  ∧ touched (Get 1 : op nat nat) = Some 1
  ∧ is_insert (Get 1 : op nat nat) = false
  ∧ 1 ∈ keys (_list cache_ab)
  ∧ (3 ∉ keys (_list cache_ab))
  ∧ (insert 3 30 (exec (Get 1) cache_ab).2).1 = true
  ∧ 1 ∈ keys (_list (insert 3 30 (exec (Get 1) cache_ab).2).2).
Proof.
  assert (lru_inv cache_ab) as Hinv by by_evaluation.
  assert (2 ≤ max_size cache_ab) as Hcap by by_evaluation.
  assert (1 ∈ keys (_list cache_ab)) as Hin by by_evaluation.
  assert (3 ∉ keys (_list cache_ab)) as Hout by by_evaluation.
  split; [exact Hinv|]. split; [exact Hcap|]. split; [reflexivity|].
  split; [reflexivity|]. split; [exact Hin|]. split; [exact Hout|].
  exact (touched_survives_next_insert cache_ab (Get 1) 1 3 30 Hinv Hcap
           eq_refl eq_refl Hin Hout).
Defined.

Lemma zero_capacity_stays_empty_witness :
  Forall (λ o : op nat nat, is_resize o = false) [Insert 1 10; Find 1; Clear]
  ∧ run [Insert 1 10; Find 1; Clear] (lru_new 0) = lru_new 0
  ∧ insert 2 20 (run [Insert 1 10; Find 1; Clear] (lru_new 0)) = (true, lru_new 0).
Proof.
  assert (Forall (λ o : op nat nat, is_resize o = false) [Insert 1 10; Find 1; Clear])
    as Hos by (repeat constructor).
  split; [exact Hos|].
  exact (zero_capacity_stays_empty [Insert 1 10; Find 1; Clear] 2 20 Hos).
Defined.
